(** * common_util.py: directory merge and memoization

    A shallow embedding of the file-system block and of [memoize] of
    [common_util.py], and the properties of its specification.

    Modelling conventions.
    - A path string is a record: whether it is absolute, and its
      components.  Paths are taken in normal form: no [.] or [..]
      components, no trailing separator, no symbolic links.
    - The file system is one tree rooted at [/].  A directory lists its
      entries in the order [os.listdir] reports them.  The theorems on the
      merge take the source and the destination at paths that do not
      contain one another ([apart]).
    - The [cp -r] command that [copyFile] and [copyDirectoryContents] hand
      to the shell, [os.makedirs], [os.walk] and [pickle.dumps] belong to
      the platform, not to the module; they are modelled after their
      documented behaviour.  What the tree cannot express (permissions, a
      name the shell splits in two, a full disk) is an [env]ironment that
      says which [mkdir] calls are denied and which [cp] commands fail.
    - Python functions are computations in a state-and-exception monad over
      the [world]: the tree, the working directory, and the trace of log
      records and of commands run.
    - The rest of the module is modelled in the same way: the files read
      and written, [isBinaryFile], the counter of [getUniqueId], the
      globals of [calcLineNum], [randomString], and the floats from their
      bits.  There [open], [struct], [os.linesep], [int] and the generator
      of the module [random] belong to the platform.  Files are written
      and read as on POSIX; the encoding is left out, a file holds the
      characters written to it. *)

From stdpp Require Import base option list strings gmap.
From Stdlib Require Import ZArith.
From Stdlib Require SpecFloat.

Local Open Scope Z_scope.
Local Open Scope list_scope.

(** * The model *)

(** ** The file-system tree *)

Definition name := string.

Local Unset Elimination Schemes.
Inductive node :=
| File (content : string)
| Dir (entries : list (name * node)).
Local Set Elimination Schemes.

(** First entry called [x], as path resolution sees it. *)
Fixpoint assoc (x : name) (es : list (name * node)) : option node :=
  match es with
  | [] => None
  | (y, n) :: r => if decide (x = y) then Some n else assoc x r
  end.

(** Replace the entry called [x], or append it when there is none. *)
Fixpoint aset (x : name) (n : node) (es : list (name * node))
  : list (name * node) :=
  match es with
  | [] => [(x, n)]
  | (y, m) :: r => if decide (x = y) then (x, n) :: r else (y, m) :: aset x n r
  end.

(** Path resolution from a node. *)
Fixpoint find (n : node) (p : list name) : option node :=
  match p with
  | [] => Some n
  | x :: q =>
      match n with
      | Dir es => match assoc x es with Some c => find c q | None => None end
      | File _ => None
      end
  end.

(** Write [new] at [p]: the parent of [p] has to resolve to a directory. *)
Fixpoint put (n : node) (p : list name) (new : node) : option node :=
  match p with
  | [] => Some new
  | x :: q =>
      match n with
      | Dir es =>
          match assoc x es with
          | Some c =>
              match put c q new with
              | Some c' => Some (Dir (aset x c' es))
              | None => None
              end
          | None =>
              match q with
              | [] => Some (Dir (aset x new es))
              | _ :: _ => None
              end
          end
      | File _ => None
      end
  end.

Definition is_dir (o : option node) : bool :=
  match o with Some (Dir _) => true | _ => false end.

Definition dir_names (es : list (name * node)) : list name :=
  (filter (λ e, is_dir (Some e.2) = true) es).*1.

Definition file_names (es : list (name * node)) : list name :=
  (filter (λ e, is_dir (Some e.2) = false) es).*1.

(** ** Paths as the module handles them *)

Record pypath := PyPath { isabs : bool; parts : list name }.

Definition abs (p : list name) : pypath := PyPath true p.
Definition rel (p : list name) : pypath := PyPath false p.

(** [osp.join(a, b)]: an absolute [b] discards [a]. *)
Definition join (a b : pypath) : pypath :=
  if isabs b then b else PyPath (isabs a) (parts a ++ parts b).

(** [osp.dirname]. *)
Definition dirname (p : pypath) : pypath :=
  PyPath (isabs p) (removelast (parts p)).

(** ** The world and its monad *)

Inductive exn :=
| FileNotFoundError
| NotADirectoryError
| FileExistsError
| PermissionError
| PicklingError.

Inductive result (A : Type) :=
| Ok (a : A)
| Raise (e : exn).
Arguments Ok {A} a.
Arguments Raise {A} e.

Inductive event :=
| LogDebug (dir : list name)
| LogError (dir : list name) (e : exn)
| RanCp (src dst : list name) (returncode : Z).

Record world := World {
  root : node;
  cwd : list name;
  trace : list event
}.

(** What the tree does not decide. *)
Record env := Env {
  mkdir_denied : list name → bool;
  cp_fault : list name → list name → bool
}.

(** Nothing is denied, no command fails for outside reasons. *)
Definition benign : env := Env (λ _, false) (λ _ _, false).

Definition M (A : Type) : Type := world → result A * world.

Definition ret {A} (a : A) : M A := λ w, (Ok a, w).

Definition bind {A B} (c : M A) (k : A → M B) : M B :=
  λ w, match c w with
       | (Ok a, w') => k a w'
       | (Raise e, w') => (Raise e, w')
       end.

Notation "x <- c ;; k" := (bind c (λ x, k))
  (at level 100, c at next level, right associativity).
Notation "c ;;; k" := (bind c (λ _, k))
  (at level 100, right associativity).

Definition raise {A} (e : exn) : M A := λ w, (Raise e, w).

(** [try: c except Exception as e: h e]. *)
Definition try_except {A} (c : M A) (h : exn → M A) : M A :=
  λ w, match c w with
       | (Ok a, w') => (Ok a, w')
       | (Raise e, w') => h e w'
       end.

Definition emit (ev : event) : M unit :=
  λ w, (Ok tt, World (root w) (cwd w) (trace w ++ [ev])).

Definition set_root (r : node) : M unit :=
  λ w, (Ok tt, World r (cwd w) (trace w)).

Fixpoint for_each {A} (l : list A) (body : A → M unit) : M unit :=
  match l with
  | [] => ret tt
  | x :: r => body x ;;; for_each r body
  end.

(** The operating system resolves a relative path from the working
    directory. *)
Definition resolve (w : world) (p : pypath) : list name :=
  if isabs p then parts p else cwd w ++ parts p.

Definition lookup_path (p : pypath) : M (option node) :=
  λ w, (Ok (find (root w) (resolve w p)), w).

(** [osp.exists]. *)
Definition exists_ (p : pypath) : M bool :=
  o <- lookup_path p ;; ret (bool_decide (is_Some o)).

(** [osp.isdir]. *)
Definition isdir (p : pypath) : M bool :=
  o <- lookup_path p ;; ret (is_dir o).

(** [os.listdir]. *)
Definition listdir (p : pypath) : M (list name) :=
  o <- lookup_path p ;;
  match o with
  | Some (Dir es) => ret es.*1
  | Some (File _) => raise NotADirectoryError
  | None => raise FileNotFoundError
  end.

(** ** Platform operations that depend on the environment *)

Section Platform.
Variable E : env.

(** [os.mkdir]: one level, the parent has to be a directory. *)
Definition mkdir (p : list name) : M unit :=
  λ w,
    match find (root w) p with
    | Some _ => (Raise FileExistsError, w)
    | None =>
        match find (root w) (removelast p) with
        | None => (Raise FileNotFoundError, w)
        | Some (File _) => (Raise NotADirectoryError, w)
        | Some (Dir _) =>
            if mkdir_denied E p then (Raise PermissionError, w)
            else match put (root w) p (Dir []) with
                 | Some r => set_root r w
                 | None => (Raise FileNotFoundError, w)
                 end
        end
    end.

(** The last step of [os.makedirs]: [mkdir] the leaf; its error is
    forgiven only when [exist_ok] holds and the leaf is a directory. *)
Definition mkdir_leaf (name : list name) (exist_ok : bool) : M unit :=
  try_except (mkdir name)
    (λ e, d <- isdir (abs name) ;;
          if negb exist_ok || negb d then raise e else ret tt).

(** [os.makedirs(name, exist_ok)], on the components of [name] in reverse:
    when the head is not there, create it first (a [FileExistsError] from
    that recursive call is passed over), then the leaf. *)
Fixpoint makedirs_rev (rname : list name) (exist_ok : bool) : M unit :=
  match rname with
  | [] => mkdir_leaf (rev rname) exist_ok
  | _ :: rhead =>
      head_exists <- exists_ (abs (rev rhead)) ;;
      (if negb head_exists then
         try_except (makedirs_rev rhead exist_ok)
           (λ e, match e with FileExistsError => ret tt | _ => raise e end)
       else ret tt) ;;;
      mkdir_leaf (rev rname) exist_ok
  end.

Definition makedirs (name : list name) (exist_ok : bool) : M unit :=
  makedirs_rev (rev name) exist_ok.

(** [cp -r] onto an entry that is already there: a file replaces a file,
    a directory is merged into a directory entry by entry, and a file and
    a directory do not replace each other.  The boolean is success. *)
Fixpoint overlay (s e : node) {struct s} : node * bool :=
  match s, e with
  | File c, File _ => (File c, true)
  | File _, Dir _ => (e, false)
  | Dir _, File _ => (e, false)
  | Dir ses, Dir des =>
      let fix go (l : list (name * node)) (acc : list (name * node) * bool) :=
        match l with
        | [] => acc
        | (x, sc) :: r =>
            match assoc x acc.1 with
            | None => go r (aset x sc acc.1, acc.2)
            | Some ec =>
                let '(ec', ok) := overlay sc ec in
                go r (aset x ec' acc.1, acc.2 && ok)
            end
        end in
      let '(des', ok) := go ses (des, true) in
      (Dir des', ok)
  end.

(** The effect of [cp -r src dst] on the tree, and its exit status. *)
Definition cp_r (r : node) (src dst : list name) : node * Z :=
  if cp_fault E src dst then (r, 1) else
  match find r src, last src with
  | Some s, Some base =>
      match find r dst with
      | Some (Dir _) =>
          (* into the directory, under the source's own name *)
          match find r (dst ++ [base]) with
          | None =>
              match put r (dst ++ [base]) s with
              | Some r' => (r', 0)
              | None => (r, 1)
              end
          | Some e =>
              let '(e', ok) := overlay s e in
              match put r (dst ++ [base]) e' with
              | Some r' => (r', if ok then 0 else 1)
              | None => (r, 1)
              end
          end
      | Some (File _) =>
          (* onto an existing file *)
          match s with
          | File c =>
              match put r dst (File c) with
              | Some r' => (r', 0)
              | None => (r, 1)
              end
          | Dir _ => (r, 1)
          end
      | None =>
          (* to a new name, in an existing directory *)
          match dst, find r (removelast dst) with
          | _ :: _, Some (Dir _) =>
              match put r dst s with
              | Some r' => (r', 0)
              | None => (r, 1)
              end
          | _, _ => (r, 1)
          end
      end
  | _, _ => (r, 1)
  end.

(** [subp.run(f"cp -r {src} {dst}", shell=True)]: the completed process
    carries the exit status, nothing is raised when it is not zero. *)
Definition run_cp (src dst : pypath) : M Z :=
  λ w,
    let s := resolve w src in
    let d := resolve w dst in
    let '(r, code) := cp_r (root w) s d in
    (Ok code, World r (cwd w) (trace w ++ [RanCp s d code])).

End Platform.

(** [os.walk], top down: the paths of a directory's subdirectories, then of
    its other entries, then the same for each subdirectory in turn. *)
Fixpoint walk (top : list name) (n : node) {struct n} : list (list name) :=
  match n with
  | File _ => []
  | Dir es =>
      map (λ d, top ++ [d]) (dir_names es)
      ++ map (λ f, top ++ [f]) (file_names es)
      ++ (fix below (l : list (name * node)) : list (list name) :=
            match l with
            | [] => []
            | (d, c) :: r => walk (top ++ [d]) c ++ below r
            end) es
  end.

(** ** The file-system block of the module *)

Section FileSystem_Related.
Variable E : env.

(** [getAbolutePath(filePath)]. *)
Definition getAbolutePath (filePath : pypath) : M pypath :=
  if isabs filePath then ret filePath
  else λ w, (Ok (join (abs (cwd w)) filePath), w).

(** [createDir(dirPath, existOk=True)]: the absolute path, or [None] when
    [os.makedirs] raised. *)
Definition createDir (dirPath : pypath) (existOk : bool) : M (option pypath) :=
  absPath <- getAbolutePath dirPath ;;
  emit (LogDebug (parts absPath)) ;;;
  try_except
    (makedirs E (parts absPath) existOk ;;; ret (Some absPath))
    (λ e, emit (LogError (parts absPath) e) ;;; ret None).

(** [isEmptyDir(directory)]. *)
Definition isEmptyDir (directory : pypath) : M bool :=
  lst <- listdir directory ;;
  ret (bool_decide (length lst = 0%nat)).

(** [getAllFilePaths(directory)]: the paths the generator yields, in
    order.  The generator is run ahead of its consumer, which is the same
    as long as the consumer does not write below [directory]. *)
Definition getAllFilePaths (directory : pypath) : M (list pypath) :=
  o <- lookup_path directory ;;
  match o with
  | Some n => ret (PyPath (isabs directory) <$> walk (parts directory) n)
  | None => ret []
  end.

(** [copyDirectoryContents(srcDir, destDir)]. *)
Definition copyDirectoryContents (srcDir destDir : pypath) : M unit :=
  filePathList <- listdir srcDir ;;
  for_each filePathList (λ filePath,
    let absFilePath := join srcDir (rel [filePath]) in
    run_cp E absFilePath destDir ;;; ret tt).

(** [copyFile(filePath, destDir)]. *)
Definition copyFile (filePath destDir : pypath) : M unit :=
  run_cp E filePath destDir ;;; ret tt.

(** The body of the loop of STEP 3.2.  [prefixLen] counts the components
    of the source directory: the [+ 1] of the source is the separator that
    follows them. *)
Definition selective_step (absSrcDirPath absDestDirPath absSrcFilePath : pypath)
  : M unit :=
  let prefixLen := length (parts absSrcDirPath) in
  let relFilePath := rel (drop prefixLen (parts absSrcFilePath)) in
  let relDirPath := dirname relFilePath in
  let absFilePath := join absDestDirPath relFilePath in
  let absDirPath := join absDestDirPath relDirPath in
  dirThere <- exists_ absDirPath ;;
  (if negb dirThere then createDir absDestDirPath true ;;; ret tt else ret tt) ;;;
  fileThere <- exists_ absFilePath ;;
  (if negb fileThere then copyFile absSrcFilePath absDirPath else ret tt).

(** [prepareDestinationDirectory(srcDirPath, destDirPath)]. *)
Definition prepareDestinationDirectory (srcDirPath destDirPath : pypath)
  : M unit :=
  (* STEP 0 *)
  absDestDirPath <- getAbolutePath destDirPath ;;
  absSrcDirPath <- getAbolutePath srcDirPath ;;
  (* STEP 1 *)
  createDir absDestDirPath true ;;;
  (* STEP 2 *)
  empty <- isEmptyDir absDestDirPath ;;
  if empty then
    (* STEP 3.1 *)
    copyDirectoryContents absSrcDirPath absDestDirPath
  else
    (* STEP 3.2 *)
    entries <- getAllFilePaths absSrcDirPath ;;
    for_each entries (selective_step absSrcDirPath absDestDirPath).

End FileSystem_Related.

(** Running a computation. *)
Definition outcome {A} (c : M A) (w : world) : result A := (c w).1.
Definition after {A} (c : M A) (w : world) : world := (c w).2.

(** ** Memoization *)

(** Argument values whose pickle does not depend on object identity, and
    a function object, which [pickle] refuses. *)
Inductive pyobj :=
| PyNone
| PyBool (b : bool)
| PyInt (z : Z)
| PyLambda.

(** The opcodes of the pickle stream, framing left out. *)
Inductive opcode :=
| PROTO (version : nat)
| STOP
| NONE
| NEWTRUE
| NEWFALSE
| BININT (z : Z)
| SHORT_BINUNICODE (s : string)
| MEMOIZE
| EMPTY_TUPLE
| TUPLE1
| TUPLE2
| TUPLE3
| MARK
| TUPLE
| EMPTY_DICT
| SETITEM
| SETITEMS.

#[local] Instance opcode_eq_dec : EqDecision opcode.
Proof. solve_decision. Defined.

Definition opcode_code (o : opcode) : nat + (nat + (Z + string)) :=
  match o with
  | PROTO v => inr (inl v)
  | BININT z => inr (inr (inl z))
  | SHORT_BINUNICODE s => inr (inr (inr s))
  | STOP => inl 0%nat
  | NONE => inl 1%nat
  | NEWTRUE => inl 2%nat
  | NEWFALSE => inl 3%nat
  | MEMOIZE => inl 4%nat
  | EMPTY_TUPLE => inl 5%nat
  | TUPLE1 => inl 6%nat
  | TUPLE2 => inl 7%nat
  | TUPLE3 => inl 8%nat
  | MARK => inl 9%nat
  | TUPLE => inl 10%nat
  | EMPTY_DICT => inl 11%nat
  | SETITEM => inl 12%nat
  | SETITEMS => inl 13%nat
  end.

Definition opcode_of_code (c : nat + (nat + (Z + string))) : opcode :=
  match c with
  | inr (inl v) => PROTO v
  | inr (inr (inl z)) => BININT z
  | inr (inr (inr s)) => SHORT_BINUNICODE s
  | inl 0%nat => STOP
  | inl 1%nat => NONE
  | inl 2%nat => NEWTRUE
  | inl 3%nat => NEWFALSE
  | inl 4%nat => MEMOIZE
  | inl 5%nat => EMPTY_TUPLE
  | inl 6%nat => TUPLE1
  | inl 7%nat => TUPLE2
  | inl 8%nat => TUPLE3
  | inl 9%nat => MARK
  | inl 10%nat => TUPLE
  | inl 11%nat => EMPTY_DICT
  | inl 12%nat => SETITEM
  | inl _ => SETITEMS
  end.

#[local] Instance opcode_countable : Countable opcode.
Proof.
  apply (inj_countable' opcode_code opcode_of_code). by intros [].
Defined.

(** [save] of one object: [None] is the error [pickle] raises. *)
Definition save (o : pyobj) : option opcode :=
  match o with
  | PyNone => Some NONE
  | PyBool true => Some NEWTRUE
  | PyBool false => Some NEWFALSE
  | PyInt z => Some (BININT z)
  | PyLambda => None
  end.

(** [save_tuple]: the items in order, then the opcode for their number. *)
Definition save_tuple (items : list pyobj) : option (list opcode) :=
  ops ← mapM save items;
  Some match length items with
       | 0%nat => [EMPTY_TUPLE]
       | 1%nat => ops ++ [TUPLE1; MEMOIZE]
       | 2%nat => ops ++ [TUPLE2; MEMOIZE]
       | 3%nat => ops ++ [TUPLE3; MEMOIZE]
       | _ => MARK :: ops ++ [TUPLE; MEMOIZE]
       end.

(** One item of a dictionary: the key, a string, and the value. *)
Definition save_item (kv : string * pyobj) : option (list opcode) :=
  v ← save kv.2; Some [SHORT_BINUNICODE kv.1; MEMOIZE; v].

(** [save_dict]: the items in the order the dictionary iterates them,
    which is the order of insertion, for keyword arguments the order of
    the call.  (Batches of 1000 items are not modelled.) *)
Definition save_dict (d : list (string * pyobj)) : option (list opcode) :=
  ops ← mapM save_item d;
  Some ([EMPTY_DICT; MEMOIZE]
        ++ match ops with
           | [] => []
           | [kv] => kv ++ [SETITEM]
           | _ => MARK :: concat ops ++ [SETITEMS]
           end).

(** [pickle.dumps] of the positional arguments, a tuple, and of the
    keyword arguments, a dictionary. *)
Definition dumps_args (args : list pyobj) : option (list opcode) :=
  body ← save_tuple args; Some (PROTO 4 :: body ++ [STOP]).

Definition dumps_kwargs (kwargs : list (string * pyobj))
  : option (list opcode) :=
  body ← save_dict kwargs; Some (PROTO 4 :: body ++ [STOP]).

Abbreviation cache_key := (list opcode * list opcode)%type.

Section Memoize.
(** The wrapped function: it may read and change a state of its own (a
    call counter, say), and it may raise. *)
Variable St : Type.
Variable func : list pyobj → list (string * pyobj) → St → result pyobj * St.

(** The cache of one [memoize(func)], the state of [func], and the
    invocations of [func] so far. *)
Record memo := Memo {
  cache : gmap cache_key pyobj;
  fstate : St;
  calls : list (list pyobj * list (string * pyobj))
}.

(** [memoize(func)]: the wrapper starts with an empty cache. *)
Definition memoize (st : St) : memo := Memo ∅ st [].

(** [wrapper], called with the positional arguments [args] and the
    keyword arguments [kwargs]. *)
Definition wrapper (args : list pyobj) (kwargs : list (string * pyobj))
    (m : memo) : result pyobj * memo :=
  match dumps_args args with
  | None => (Raise PicklingError, m)
  | Some ka =>
      match dumps_kwargs kwargs with
      | None => (Raise PicklingError, m)
      | Some kk =>
          let key := (ka, kk) in
          match cache m !! key with
          | Some v => (Ok v, m)
          | None =>
              let '(r, st) := func args kwargs (fstate m) in
              let log := calls m ++ [(args, kwargs)] in
              match r with
              | Ok value => (Ok value, Memo (<[key := value]> (cache m)) st log)
              | Raise e => (Raise e, Memo (cache m) st log)
              end
          end
      end
  end.

(** A sequence of calls, one after the other, whatever they return. *)
Definition run_calls (cs : list (list pyobj * list (string * pyobj)))
    (m : memo) : memo :=
  foldl (λ m c, (wrapper c.1 c.2 m).2) m cs.

End Memoize.

Arguments Memo {St} _ _ _.
Arguments cache {St} _.
Arguments fstate {St} _.
Arguments calls {St} _.
Arguments memoize {St} _.
Arguments wrapper {St} _ _ _ _.
Arguments run_calls {St} _ _ _.

Definition make_key (args : list pyobj) (kwargs : list (string * pyobj))
  : option cache_key :=
  ka ← dumps_args args; kk ← dumps_kwargs kwargs; Some (ka, kk).

(** A function that counts its invocations and returns the count. *)
Definition counting (args : list pyobj) (kwargs : list (string * pyobj))
    (n : nat) : result pyobj * nat :=
  (Ok (PyInt (Z.of_nat (Datatypes.S n))), Datatypes.S n).

(** * Definitions for the properties *)

(** ** Trees and paths *)

(** Apply [f] to the node at [p], when [p] resolves. *)
Fixpoint upd (n : node) (p : list name) (f : node → node) : node :=
  match p with
  | [] => f n
  | x :: q =>
      match n with
      | Dir es =>
          match assoc x es with
          | Some c => Dir (aset x (upd c q f) es)
          | None => n
          end
      | File _ => n
      end
  end.

(** Neither path lies on the other. *)
Definition apart (p q : list name) : Prop :=
  ¬ p `prefix_of` q ∧ ¬ q `prefix_of` p.

#[local] Instance apart_dec p q : Decision (apart p q).
Proof. unfold apart. apply _. Defined.

(** Induction on trees, with the hypothesis for every entry of a
    directory. *)
Fixpoint node_ind (P : node → Prop)
    (HF : ∀ c, P (File c))
    (HD : ∀ es, Forall (λ e, P e.2) es → P (Dir es))
    (n : node) {struct n} : P n :=
  match n with
  | File c => HF c
  | Dir es =>
      HD es ((fix all (l : list (name * node)) : Forall (λ e, P e.2) l :=
                match l with
                | [] => Forall_nil_2 _
                | e :: r => Forall_cons_2 _ e r (node_ind P HF HD e.2) (all r)
                end) es)
  end.

(** Entry names are unique in every directory, as on a real file system. *)
Fixpoint wf (n : node) : bool :=
  match n with
  | File _ => true
  | Dir es =>
      bool_decide (NoDup es.*1)
      && (fix all (l : list (name * node)) : bool :=
            match l with
            | [] => true
            | (_, c) :: r => wf c && all r
            end) es
  end.

(** ** What the selective loop computes *)






(** The walk of a directory, in its three parts. *)
Definition walk_below (top : list name) (l : list (name * node))
  : list (list name) :=
  flat_map (λ e, walk (top ++ [e.1]) e.2) l.





(** Whether the nearest ancestor of a missing path, given in reverse, is
    a directory. *)
Fixpoint creatable (n : node) (rname : list name) : bool :=
  match rname with
  | [] => false
  | _ :: rhead =>
      match find n (rev rhead) with
      | Some (Dir _) => true
      | Some (File _) => false
      | None => creatable n rhead
      end
  end.




(** The destination is a directory, or is missing and can be made. *)
Definition usable (n : node) (D : list name) : Prop :=
  is_dir (find n D) = true ∨ (find n D = None ∧ creatable n (rev D) = true).

#[local] Instance usable_dec n D : Decision (usable n D).
Proof. unfold usable. apply _. Defined.

(** ** Environments and trees of the examples *)

(** A name with a blank in it: the shell splits it in two, and [cp] fails. *)
Fixpoint has_blank (s : string) : bool :=
  match s with
  | EmptyString => false
  | String a r => bool_decide (a = Ascii.Space) || has_blank r
  end.

Definition shell_words : env :=
  Env (λ _, false) (λ src dst, existsb has_blank (src ++ dst)).

(** A source with a directory [a] where the destination has a file [a]. *)
Definition clash : world :=
  World (Dir [("s", Dir [("a", Dir [("x", File "new")])]);
              ("d", Dir [("a", File "old")])])
        [] [].

(** A source directory whose name has a blank. *)
Definition blank : world :=
  World (Dir [("s", Dir [("my dir", Dir [("x", File "X")])]);
              ("d", Dir [("k", File "K")])])
        [] [].

(** The copy of the directory [s/a] is cut short by something outside;
    every other command goes through. *)
Definition interrupted : env :=
  Env (λ _, false) (λ src dst, bool_decide (src = ["s"; "a"])).

(** A source directory [a] that the destination does not have. *)
Definition lacking : world :=
  World (Dir [("s", Dir [("a", Dir [("x", File "X")])]);
              ("d", Dir [("k", File "K")])])
        [] [].


(** A source and a destination without clash; the destination has no
    [d/a/x] and no [d/f]. *)
Definition plain : world :=
  World (Dir [("s", Dir [("a", Dir [("x", File "X")]); ("f", File "F")]);
              ("d", Dir [("a", Dir [("y", File "Y")])])])
        [] [].

(** A source, and no destination yet. *)
Definition fresh : world :=
  World (Dir [("s", Dir [("a", Dir [("x", File "X")]); ("f", File "F")])])
        [] [].

(** A working directory that is a file. *)
Definition nowhere : world := World (Dir [("home", File "")]) ["home"] [].

(** * The rest of the module, and definitions for its properties *)

(** ** Trees that only grow *)

(** [m'] stands where [m] stood: the same file, or still a directory. *)
Definition covers (m m' : node) : Prop :=
  match m with
  | File c => m' = File c
  | Dir _ => is_dir (Some m') = true
  end.

(** Whatever resolves in [n] resolves in [n'], a file to the same file and
    a directory to a directory. *)
Definition extends (n n' : node) : Prop :=
  ∀ q m, find n q = Some m → ∃ m', find n' q = Some m' ∧ covers m m'.


(** From [n] to [n'] only the paths down to [p] have changed, and nothing
    was lost. *)
Definition grown (p : list name) (n n' : node) : Prop :=
  (∀ q, ¬ q `prefix_of` p → find n' q = find n q) ∧ extends n n'.

(** [a] comes before [b] in [l]. *)
Definition before {A} (l : list A) (a b : A) : Prop :=
  ∃ l1 l2, l = l1 ++ l2 ∧ a ∈ l1 ∧ b ∈ l2.

(** ** What a run does to the tree *)




(** ** The counter and the line numbers *)

(** What the rest of the module raises: the errors above, and some
    more ([StructError] is [struct.error]). *)
Inductive error :=
| Exn (e : exn)
| IsADirectoryError
| IndexError
| ValueError
| StructError.

Inductive answer (A : Type) :=
| Returns (a : A)
| Raises (e : error).
Arguments Returns {A} a.
Arguments Raises {A} e.

(** [getUniqueId()], on the global [globalCounter]: the identifier and
    the counter it leaves. *)
Definition getUniqueId (globalCounter : Z) : Z * Z :=
  let globalCounter := globalCounter + 1 in
  (globalCounter, globalCounter).

(** [n] calls of [getUniqueId], one after the other: what they return, in
    order, and the counter they leave. *)
Fixpoint getUniqueId_times (n : nat) (globalCounter : Z) : list Z * Z :=
  match n with
  | O => ([], globalCounter)
  | Datatypes.S n =>
      let '(id, c) := getUniqueId globalCounter in
      let '(ids, c') := getUniqueId_times n c in
      (id :: ids, c')
  end.

(** The globals of [calcLineNum]. *)
Record line_cache := LineCache {
  lastStr : string;
  lastPos : Z;
  lastLineCount : Z
}.

(** The globals when the module is loaded. *)
Definition line_cache_init : line_cache := LineCache "" 0 0.

(** [s[i]]: a negative index counts from the end; [None] is the
    [IndexError]. *)
Definition str_index (s : string) (i : Z) : option Ascii.ascii :=
  let l := String.list_ascii_of_string s in
  let n := Z.of_nat (length l) in
  if bool_decide (0 ≤ i < n) then l !! Z.to_nat i
  else if bool_decide (- n ≤ i < 0) then l !! Z.to_nat (n + i)
  else None.

Section LineNumbers.
(** [os.linesep]. *)
Variable linesep : string.

(** The loop of [calcLineNum] over the indices [range(lastPos, pos)]. *)
Fixpoint count_lines (s : string) (indices : list Z) (g : line_cache)
  : answer unit * line_cache :=
  match indices with
  | [] => (Returns tt, g)
  | i :: r =>
      match str_index s i with
      | None => (Raises IndexError, g)
      | Some c =>
          count_lines s r
            (if decide (String c EmptyString = linesep)
             then LineCache (lastStr g) (lastPos g) (lastLineCount g + 1)
             else g)
      end
  end.

(** [calcLineNum(s, pos)]. *)
Definition calcLineNum (s : string) (pos : Z) (g : line_cache)
  : answer Z * line_cache :=
  let g := if decide (s ≠ lastStr g) then LineCache s 0 1 else g in
  match count_lines s (seqZ (lastPos g) (pos - lastPos g)) g with
  | (Returns _, g') => (Returns (lastLineCount g'), g')
  | (Raises e, g') => (Raises e, g')
  end.

End LineNumbers.

(** The line separators among the first [pos] characters of [s]. *)
Definition separators (linesep s : string) (pos : Z) : Z :=
  Z.of_nat (length (filter (λ c, String c EmptyString = linesep)
                      (take (Z.to_nat pos) (String.list_ascii_of_string s)))).

(** The number of characters of [s]. *)
Definition len (s : string) : Z := Z.of_nat (length (String.list_ascii_of_string s)).

(** ** Files read and written *)

(** Where [open] finds a path: a missing component is the
    [FileNotFoundError], a file on the way the [NotADirectoryError]. *)
Fixpoint locate (n : node) (p : list name) : answer node :=
  match p with
  | [] => Returns n
  | x :: q =>
      match n with
      | File _ => Raises (Exn NotADirectoryError)
      | Dir es =>
          match assoc x es with
          | Some c => locate c q
          | None => Raises (Exn FileNotFoundError)
          end
      end
  end.

Definition CR : Ascii.ascii :=
  Ascii.Ascii true false true true false false false false.
Definition LF : Ascii.ascii :=
  Ascii.Ascii false true false true false false false false.

(** What a file opened for reading as text hands over, with the default
    [newline=None]: a carriage return, with the line feed that follows it
    if there is one, becomes a line feed. *)
Fixpoint universal_newlines (s : string) : string :=
  match s with
  | EmptyString => EmptyString
  | String c r =>
      if decide (c = CR) then
        String LF
          match r with
          | String c' r' =>
              if decide (c' = LF) then universal_newlines r'
              else universal_newlines r
          | EmptyString => EmptyString
          end
      else String c (universal_newlines r)
  end.

(** [open(fileName, mode)] with the mode [w] or [a]: the file is there
    with a content, or it is not and its directory is ([None]), or the
    error.  (Permissions are left out, and so is the encoding: a file
    holds the text written to it.  On POSIX text is written as it is.) *)
Definition open_for_writing (n : node) (p : list name)
  : answer (option string) :=
  match locate n p with
  | Returns (File c) => Returns (Some c)
  | Returns (Dir _) => Raises IsADirectoryError
  | Raises (Exn FileNotFoundError) =>
      match locate n (removelast p) with
      | Returns (Dir _) => Returns None
      | Returns (File _) => Raises (Exn NotADirectoryError)
      | Raises e => Raises e
      end
  | Raises e => Raises e
  end.

(** The file at [p] gets the content [c]. *)
Definition store (p : list name) (c : string) (w : world)
  : answer unit * world :=
  match put (root w) p (File c) with
  | Some r => (Returns tt, World r (cwd w) (trace w))
  | None => (Raises (Exn FileNotFoundError), w)
  end.

(** [readFromFile(fileName)]. *)
Definition readFromFile (fileName : pypath) (w : world)
  : answer string * world :=
  match locate (root w) (resolve w fileName) with
  | Returns (File c) => (Returns (universal_newlines c), w)
  | Returns (Dir _) => (Raises IsADirectoryError, w)
  | Raises e => (Raises e, w)
  end.

(** [writeToFile(fileName, content)]: the mode [w] empties the file. *)
Definition writeToFile (fileName : pypath) (content : string) (w : world)
  : answer unit * world :=
  let p := resolve w fileName in
  match open_for_writing (root w) p with
  | Returns _ => store p content w
  | Raises e => (Raises e, w)
  end.

(** [appendToFile(fileName, content)]: the mode [a] writes at the end. *)
Definition appendToFile (fileName : pypath) (content : string) (w : world)
  : answer unit * world :=
  let p := resolve w fileName in
  match open_for_writing (root w) p with
  | Returns old => store p (default EmptyString old +:+ content) w
  | Raises e => (Raises e, w)
  end.

(** One call, then the next unless the first raised. *)
Definition and_then {A B} (c : world → answer A * world)
    (k : world → answer B * world) : world → answer B * world :=
  λ w, match c w with
       | (Returns _, w') => k w'
       | (Raises e, w') => (Raises e, w')
       end.

(** [TEXT_CHARS], as the set of its byte values. *)
Definition TEXT_CHARS : list N :=
  list_union [7; 8; 9; 10; 12; 13; 27]%N
    (list_difference (N.of_nat <$> seq 0x20 (0x100 - 0x20)) [0x7f%N]).

(** [bytes.translate(None, delete)]: the bytes that are not in [delete]. *)
Definition translate_delete (bytes delete : list N) : list N :=
  filter (λ b, b ∉ delete) bytes.

Definition isBinaryString (bytes : list N) : bool :=
  bool_decide (translate_delete bytes TEXT_CHARS ≠ []).

(** [isBinaryFile(filePath)]: [read(1024)] is the first 1024 bytes, or
    all the bytes of a shorter file. *)
Definition isBinaryFile (filePath : pypath) (w : world)
  : answer bool * world :=
  match locate (root w) (resolve w filePath) with
  | Returns (File c) =>
      (Returns (isBinaryString
                  (take 1024 (Ascii.N_of_ascii
                                <$> String.list_ascii_of_string c))), w)
  | Returns (Dir _) => (Raises IsADirectoryError, w)
  | Raises e => (Raises e, w)
  end.

(** A byte that [TEXT_CHARS] does not have: a control character other
    than bell, backspace, tab, line feed, form feed, carriage return and
    escape, or the delete character. *)
Definition control_byte (b : N) : Prop :=
  ((b < 0x20)%N ∧ b ∉ [7; 8; 9; 10; 12; 13; 27]%N) ∨ b = 0x7f%N.

(** A path at which a file can be written: a file is there, or nothing
    is and the directory of the path is there. *)
Definition writable (n : node) (p : list name) : Prop :=
  (∃ old, find n p = Some (File old))
  ∨ (find n p = None ∧ is_dir (find n (removelast p)) = true).

(** ** Random strings *)

(** [string.digits], [string.ascii_uppercase], [string.ascii_lowercase]. *)
Definition string_digits : list Ascii.ascii :=
  String.list_ascii_of_string "0123456789".
Definition ascii_uppercase : list Ascii.ascii :=
  String.list_ascii_of_string "ABCDEFGHIJKLMNOPQRSTUVWXYZ".
Definition ascii_lowercase : list Ascii.ascii :=
  String.list_ascii_of_string "abcdefghijklmnopqrstuvwxyz".

(** The slice [l[:stop]]: a negative [stop] counts from the end. *)
Definition slice_to {A} (l : list A) (stop : Z) : list A :=
  if bool_decide (0 ≤ stop) then take (Z.to_nat stop) l
  else take (length l - Z.to_nat (- stop)) l.

Section Random.
(** The generator of the module [random]: its state, and the two calls
    that are made on it.  [choices] is given the population and [k]. *)
Variable rng : Type.
Variable choices : list Ascii.ascii → nat → rng → list Ascii.ascii * rng.
Variable shuffle : list Ascii.ascii → rng → list Ascii.ascii * rng.

(** [randomString(length, digits, caps, small)].  A negative [k] gives
    [random.choices] nothing to repeat. *)
Definition randomString (length : Z) (digits caps small : bool) (g : rng)
  : option string * rng :=
  if negb (digits || caps || small) then (None, g) else
  let '(randDigits, g) := choices string_digits (Z.to_nat length) g in
  let '(randCaps, g) := choices ascii_uppercase (Z.to_nat length) g in
  let '(randSmall, g) := choices ascii_lowercase (Z.to_nat length) g in
  let collect := [] in
  let collect := if digits then randDigits else collect in
  let collect := if caps then collect ++ randCaps else collect in
  let collect := if small then collect ++ randSmall else collect in
  let '(collect, g) := shuffle collect g in
  (Some (String.string_of_list_ascii (slice_to collect length)), g).

(** What the two calls are known to do: [choices] returns [k] members of
    a population that is not empty, [shuffle] reorders. *)
Definition fair : Prop :=
  (∀ pop k g, pop ≠ [] →
     length (choices pop k g).1 = k ∧ Forall (.∈ pop) (choices pop k g).1)
  ∧ (∀ l g, (shuffle l g).1 ≡ₚ l).

End Random.

(** A generator without chance: the first member every time, and the
    list turned round. *)
Definition first_choices (pop : list Ascii.ascii) (k : nat) (g : unit)
  : list Ascii.ascii * unit :=
  (replicate k (default Ascii.zero (head pop)), g).
Definition turn_round (l : list Ascii.ascii) (g : unit)
  : list Ascii.ascii * unit := (reverse l, g).

(** ** Floats from their bits *)

(** The argument of [hexToFloat] and [hexToDouble]: a string, an integer,
    or something else. *)
Inductive hexval :=
| HexStr (s : string)
| HexInt (z : Z)
| HexOther.

(** [size] bytes of [u], the most significant first. *)
Fixpoint big_endian (size : nat) (u : Z) : list Z :=
  match size with
  | O => []
  | Datatypes.S n => (u / 2 ^ (8 * Z.of_nat n)) mod 256 :: big_endian n u
  end.

Definition from_big_endian (bytes : list Z) : Z :=
  foldl (λ acc b, acc * 256 + b) 0 bytes.

(** [struct.pack] with the format [!i] (4 bytes) or [!q] (8 bytes): the
    integer in two's complement, or [struct.error] when it does not fit. *)
Definition pack_int (size : nat) (v : Z) : answer (list Z) :=
  let width := 8 * Z.of_nat size in
  if bool_decide (- 2 ^ (width - 1) ≤ v < 2 ^ (width - 1))
  then Returns (big_endian size (v mod 2 ^ width))
  else Raises StructError.

(** The IEEE 754 value with [ebits] bits of exponent and [mbits] bits of
    fraction that has the bits [u]. *)
Definition decode_ieee (ebits mbits : Z) (u : Z) : SpecFloat.spec_float :=
  let s := Z.testbit u (ebits + mbits) in
  let e := (u / 2 ^ mbits) mod 2 ^ ebits in
  let m := u mod 2 ^ mbits in
  if bool_decide (e = 0) then
    if bool_decide (m = 0) then SpecFloat.S754_zero s
    else SpecFloat.S754_finite s (Z.to_pos m) (2 - 2 ^ (ebits - 1) - mbits)
  else if bool_decide (e = 2 ^ ebits - 1) then
    if bool_decide (m = 0) then SpecFloat.S754_infinity s
    else SpecFloat.S754_nan
  else
    SpecFloat.S754_finite s (Z.to_pos (m + 2 ^ mbits))
      (e - (2 ^ (ebits - 1) - 1) - mbits).

(** [struct.unpack] with the format [!f] or [!d], first component. *)
Definition unpack_float (ebits mbits : Z) (bytes : list Z)
  : SpecFloat.spec_float :=
  decode_ieee ebits mbits (from_big_endian bytes).

Section Hex.
(** [int(s, 16)]: [None] is the [ValueError]. *)
Variable int16 : string → option Z.

(** [hexToFloat(hexVal)]; [None] is returned for an argument that is
    neither a string nor an integer. *)
Definition hexToFloat (hexVal : hexval)
  : answer (option SpecFloat.spec_float) :=
  match hexVal with
  | HexStr s =>
      match int16 s with
      | None => Raises ValueError
      | Some v =>
          match pack_int 4 v with
          | Returns bytes => Returns (Some (unpack_float 8 23 bytes))
          | Raises e => Raises e
          end
      end
  | HexInt v =>
      match pack_int 4 v with
      | Returns bytes => Returns (Some (unpack_float 8 23 bytes))
      | Raises e => Raises e
      end
  | HexOther => Returns None
  end.

(** [hexToDouble(hexVal)]. *)
Definition hexToDouble (hexVal : hexval)
  : answer (option SpecFloat.spec_float) :=
  match hexVal with
  | HexStr s =>
      match int16 s with
      | None => Raises ValueError
      | Some v =>
          match pack_int 8 v with
          | Returns bytes => Returns (Some (unpack_float 11 52 bytes))
          | Raises e => Raises e
          end
      end
  | HexInt v =>
      match pack_int 8 v with
      | Returns bytes => Returns (Some (unpack_float 11 52 bytes))
      | Raises e => Raises e
      end
  | HexOther => Returns None
  end.

End Hex.

(** Whether a value carries the minus sign (a NaN carries none here). *)
Definition negative (x : SpecFloat.spec_float) : bool :=
  match x with
  | SpecFloat.S754_zero s | SpecFloat.S754_infinity s
  | SpecFloat.S754_finite s _ _ => s
  | SpecFloat.S754_nan => false
  end.

(** A function that raises at every call, and counts the calls. *)
Definition refusing (args : list pyobj) (kwargs : list (string * pyobj))
    (n : nat) : result pyobj * nat :=
  (Raise PermissionError, Datatypes.S n).

(** The separator of lines on POSIX. *)
Definition posix_linesep : string := String LF EmptyString.

(** Two lines: [a], a line feed, [b]. *)
Definition two_lines : string := "a" +:+ posix_linesep +:+ "b".

(** * Properties *)

(** ** Trees and paths *)


Lemma apart_cons x p q : apart (x :: p) (x :: q) → apart p q.
Proof.
  intros [H1 H2]. split; intros H; [apply H1 | apply H2];
    by apply prefix_cons.
Qed.



Lemma assoc_aset_eq x n es : assoc x (aset x n es) = Some n.
Proof.
  induction es as [|[y m] es IH]; simpl.
  - by rewrite decide_True.
  - destruct (decide (x = y)); simpl.
    + by rewrite decide_True.
    + by rewrite decide_False.
Qed.

Lemma assoc_aset_ne x y n es : x ≠ y → assoc y (aset x n es) = assoc y es.
Proof.
  intros Hne. induction es as [|[z m] es IH]; simpl.
  - by rewrite decide_False.
  - destruct (decide (x = z)) as [->|]; simpl.
    + by rewrite !decide_False.
    + destruct (decide (y = z)); [done | apply IH].
Qed.

Lemma aset_aset x n m es : aset x n (aset x m es) = aset x n es.
Proof.
  induction es as [|[y k] es IH]; simpl.
  - by rewrite decide_True.
  - destruct (decide (x = y)); simpl.
    + by rewrite decide_True.
    + rewrite decide_False by done. by rewrite IH.
Qed.



Lemma assoc_None x es : assoc x es = None ↔ x ∉ es.*1.
Proof.
  induction es as [|[y k] es IH]; simpl.
  - split; [intros _; apply not_elem_of_nil | done].
  - rewrite not_elem_of_cons. destruct (decide (x = y)); [|tauto].
    split; [done | tauto].
Qed.

Lemma assoc_Some_elem x n es : assoc x es = Some n → (x, n) ∈ es.
Proof.
  induction es as [|[y k] es IH]; simpl; [done|].
  destruct (decide (x = y)) as [->|]; intros H.
  - simplify_eq. left.
  - right. auto.
Qed.

Lemma assoc_NoDup x n es : NoDup es.*1 → (x, n) ∈ es → assoc x es = Some n.
Proof.
  induction es as [|[y k] es IH]; simpl.
  - by intros _ ?%elem_of_nil.
  - intros [Hy Hnd]%NoDup_cons [Heq|Hin]%elem_of_cons.
    + simplify_eq. by rewrite decide_True.
    + rewrite decide_False; [auto|].
      intros ->. apply Hy. apply list_elem_of_fmap. by exists (y, n).
Qed.

Lemma find_app n p q : find n (p ++ q) = find n p ≫= λ m, find m q.
Proof.
  revert n. induction p as [|x p IH]; intros n; simpl; [done|].
  destruct n as [|es]; [done|]. destruct (assoc x es); [apply IH | done].
Qed.

Lemma find_snoc_Dir n p x es :
  find n p = Some (Dir es) → find n (p ++ [x]) = assoc x es.
Proof. intros H. rewrite find_app, H. simpl. by destruct (assoc x es). Qed.

Lemma find_prefix_Some n p q : is_Some (find n (p ++ q)) → is_Some (find n p).
Proof. rewrite find_app. destruct (find n p); [eauto | by intros [? ?]]. Qed.

Lemma find_upd_eq n p f : find (upd n p f) p = f <$> find n p.
Proof.
  revert n. induction p as [|x p IH]; intros n; simpl; [done|].
  destruct n as [|es]; [done|]. destruct (assoc x es) eqn:Hx; simpl.
  - by rewrite assoc_aset_eq, IH.
  - by rewrite Hx.
Qed.

Lemma find_upd_below n p q f :
  find (upd n p f) (p ++ q) = find n p ≫= λ m, find (f m) q.
Proof. rewrite find_app, find_upd_eq. by destruct (find n p). Qed.

Lemma find_upd_apart n p q f : apart p q → find (upd n p f) q = find n q.
Proof.
  revert n q. induction p as [|x p IH]; intros n q Hpq.
  { destruct Hpq as [[] _]. apply prefix_nil. }
  destruct q as [|y q].
  { destruct Hpq as [_ []]. apply prefix_nil. }
  simpl. destruct n as [|es]; [done|].
  destruct (assoc x es) eqn:Hx; [|done]. simpl.
  destruct (decide (x = y)) as [->|Hne].
  - rewrite assoc_aset_eq, Hx. apply IH. by eapply apart_cons.
  - by rewrite assoc_aset_ne.
Qed.






(** Writing where something is: the node is replaced. *)
Lemma put_upd n p new :
  is_Some (find n p) → put n p new = Some (upd n p (λ _, new)).
Proof.
  revert n. induction p as [|x p IH]; intros n; simpl; [done|].
  destruct n as [|es]; [by intros [? ?]|].
  destruct (assoc x es) eqn:Hx; [|by intros [? ?]].
  intros H. by rewrite IH.
Qed.

(** Writing a new name in a directory: the entry is appended. *)
Lemma put_new n p x es new :
  find n p = Some (Dir es) → assoc x es = None →
  put n (p ++ [x]) new = Some (upd n p (λ _, Dir (aset x new es))).
Proof.
  revert n. induction p as [|y p IH]; intros n; simpl.
  - intros [= ->] Hx. by rewrite Hx.
  - destruct n as [|fs]; [done|]. destruct (assoc y fs) eqn:Hy; [|done].
    intros H Hx. by rewrite (IH _ H Hx).
Qed.

Lemma wf_Dir es :
  wf (Dir es) = true ↔ NoDup es.*1 ∧ Forall (λ e, wf e.2 = true) es.
Proof.
  simpl. rewrite andb_true_iff, bool_decide_eq_true.
  apply and_iff_compat_l.
  induction es as [|[x c] es IH]; simpl.
  - split; [by constructor | done].
  - rewrite andb_true_iff, Forall_cons, IH. done.
Qed.

Lemma wf_find n p m : wf n = true → find n p = Some m → wf m = true.
Proof.
  revert n. induction p as [|x p IH]; intros n Hwf; simpl.
  - by intros [= <-].
  - destruct n as [|es]; [done|].
    destruct (assoc x es) as [c|] eqn:Hx; [|done].
    apply IH. apply wf_Dir in Hwf as [_ Hall].
    rewrite Forall_forall in Hall.
    by apply (Hall (x, c)), assoc_Some_elem.
Qed.










(** ** Running the platform operations *)


Lemma removelast_snoc {A} (l : list A) (x : A) : removelast (l ++ [x]) = l.
Proof. apply removelast_last. Qed.

(** [os.makedirs] of a directory that is there, with [exist_ok]: nothing
    happens. *)
Lemma exists_run p w :
  exists_ p w = (Ok (bool_decide (is_Some (find (root w) (resolve w p)))), w).
Proof. done. Qed.







Lemma getAbolutePath_run p w :
  getAbolutePath p w = (Ok (abs (resolve w p)), w).
Proof.
  unfold getAbolutePath, resolve, join, abs. destruct p as [[] ps]; simpl.
  - done.
  - done.
Qed.



Lemma walk_Dir top es :
  walk top (Dir es)
  = map (λ d, top ++ [d]) (dir_names es)
    ++ map (λ f, top ++ [f]) (file_names es)
    ++ walk_below top es.
Proof.
  simpl. do 2 f_equal. unfold walk_below.
  induction es as [|[x c] es IH]; simpl; [done|]. by rewrite IH.
Qed.

Lemma names_split (es : list (name * node)) x c :
  (x, c) ∈ es → x ∈ dir_names es ++ file_names es.
Proof.
  intros Hin. unfold dir_names, file_names. rewrite elem_of_app.
  destruct (is_dir (Some c)) eqn:Hc; [left | right];
    apply list_elem_of_fmap; exists (x, c); split; try done;
    by apply list_elem_of_filter.
Qed.

Lemma names_split_assoc (es : list (name * node)) x :
  x ∈ dir_names es ++ file_names es → is_Some (assoc x es).
Proof.
  unfold dir_names, file_names.
  rewrite elem_of_app, !list_elem_of_fmap.
  intros [[[y c] [-> [_ Hin]%list_elem_of_filter]]
         |[[y c] [-> [_ Hin]%list_elem_of_filter]]]; simpl;
    (destruct (assoc y es) eqn:Hy; [eauto|]);
    apply assoc_None in Hy; destruct Hy;
    apply list_elem_of_fmap; by exists (y, c).
Qed.


(** ** The selective loop, one entry at a time *)

Section Selective.
Variables S D : list name.
Hypothesis Hapart : apart S D.









End Selective.

(** ** The merged tree *)
















(** ** Creating the destination directory *)


(** A new empty directory does not show at any path but its own and the
    paths above it. *)
Lemma find_new_dir_frame n h t es q :
  find n h = Some (Dir es) → assoc t es = None →
  ¬ q `prefix_of` (h ++ [t]) →
  find (upd n h (λ _, Dir (aset t (Dir []) es))) q = find n q.
Proof.
  intros Hh Ht Hq.
  destruct (decide (h `prefix_of` q)) as [[k ->]|Hhq].
  - rewrite find_upd_below, find_app, Hh. simpl.
    destruct k as [|y k].
    { destruct Hq. rewrite app_nil_r. by exists [t]. }
    simpl. destruct (decide (t = y)) as [<-|Hne].
    + rewrite assoc_aset_eq, Ht. destruct k as [|z k]; [|done].
      by destruct Hq.
    + by rewrite assoc_aset_ne.
  - apply find_upd_apart. split; [done|].
    intros Hqh. apply Hq. etrans; [done|]. by exists [t].
Qed.



(** ** The bulk copy and the whole operation *)

Lemma listdir_run p w :
  listdir p w
  = match find (root w) (resolve w p) with
    | Some (Dir es) => (Ok es.*1, w)
    | Some (File _) => (Raise NotADirectoryError, w)
    | None => (Raise FileNotFoundError, w)
    end.
Proof.
  unfold listdir, bind, lookup_path.
  by destruct (find (root w) (resolve w p)) as [[|]|].
Qed.









(** ** What never raises *)

Lemma createDir_run E dirPath existOk w :
  createDir E dirPath existOk w
  = let absPath := resolve w dirPath in
    let w0 := World (root w) (cwd w) (trace w ++ [LogDebug absPath]) in
    match makedirs E absPath existOk w0 with
    | (Ok _, w1) => (Ok (Some (abs absPath)), w1)
    | (Raise e, w1) =>
        (Ok None,
         World (root w1) (cwd w1) (trace w1 ++ [LogError absPath e]))
    end.
Proof.
  unfold createDir, bind at 1. rewrite getAbolutePath_run.
  unfold bind at 1, emit at 1. unfold try_except, bind at 1.
  cbn [abs parts].
  by destruct (makedirs E _ existOk _) as [[[]|e] w1].
Qed.





(** ** The claims on the directory merge *)







(** C1 (non-overwrite), on the failing input [clash]: the destination
    file [a], with content [old], holds the content of the source file
    [a/x] after the merge; the command that did it is in the trace. *)
Theorem overwrites_file_at_directory_name :
  let merge := prepareDestinationDirectory benign (abs ["s"]) (abs ["d"]) in
  find (root clash) ["d"; "a"] = Some (File "old")
  ∧ outcome merge clash = Ok tt
  ∧ find (root (after merge clash)) ["d"; "a"] = Some (File "new")
  ∧ trace (after merge clash)
    = [LogDebug ["d"]; RanCp ["s"; "a"; "x"] ["d"; "a"] 0].
Proof. by vm_compute. Qed.

(** C3 (creating the missing directory), on the failing input [blank]:
    [cp] of the source directory [my dir] fails, so that for its entry [x]
    the directory [d/my dir] is missing; the loop then calls [createDir]
    on the destination root only (the second [LogDebug]), and [d/my dir]
    is not there after the merge. *)
Theorem missing_directory_not_created :
  let merge := prepareDestinationDirectory shell_words (abs ["s"]) (abs ["d"]) in
  outcome merge blank = Ok tt
  ∧ find (root (after merge blank)) ["d"; "my dir"] = None
  ∧ trace (after merge blank)
    = [LogDebug ["d"]; RanCp ["s"; "my dir"] ["d"] 1;
       LogDebug ["d"]; RanCp ["s"; "my dir"; "x"] ["d"; "my dir"] 1].
Proof. by vm_compute. Qed.

(** The same defect, when the copy of the directory [a] alone fails: for
    the entry [a/x] the directory [d/a] is missing, it is not created, and
    [cp -r s/a/x d/a] makes [d/a] a regular file with the content of
    [x]. *)
Lemma missing_directory_becomes_file :
  let merge := prepareDestinationDirectory interrupted (abs ["s"]) (abs ["d"]) in
  outcome merge lacking = Ok tt
  ∧ find (root (after merge lacking)) ["d"; "a"] = Some (File "X")
  ∧ trace (after merge lacking)
    = [LogDebug ["d"]; RanCp ["s"; "a"] ["d"] 1;
       LogDebug ["d"]; RanCp ["s"; "a"; "x"] ["d"; "a"] 0].
Proof. by vm_compute. Qed.




(** ** Memoization: the key determines the arguments *)

Lemma save_inj a b o : save a = Some o → save b = Some o → a = b.
Proof.
  destruct a as [|[]| |], b as [|[]| |]; simpl; intros; by simplify_eq.
Qed.

Lemma mapM_inj {A B} (f : A → option B) l1 l2 k :
  (∀ a b o, f a = Some o → f b = Some o → a = b) →
  mapM f l1 = Some k → mapM f l2 = Some k → l1 = l2.
Proof.
  intros Hf H1%mapM_Some H2%mapM_Some. revert l2 H2.
  induction H1 as [|a o l1 k Ha _ IH]; intros l2 H2.
  - by apply Forall2_nil_inv_r in H2.
  - apply Forall2_cons_inv_r in H2 as (b & l2' & Hb & H2 & ->).
    f_equal; [by eapply Hf | by apply IH].
Qed.

Lemma save_tuple_inj a b x :
  save_tuple a = Some x → save_tuple b = Some x → a = b.
Proof.
  unfold save_tuple. intros Ha Hb.
  destruct (mapM save a) as [oa|] eqn:Hoa; [|done].
  destruct (mapM save b) as [ob|] eqn:Hob; [|done].
  simpl in Ha, Hb. rewrite (length_mapM _ _ _ Hoa) in Ha.
  rewrite (length_mapM _ _ _ Hob) in Hb.
  assert (oa = ob) as ->; [|by eapply mapM_inj; eauto using save_inj].
  assert (length oa = length ob) as Hlen.
  { apply (f_equal (fmap (length (A := opcode)))) in Ha, Hb.
    simpl in Ha, Hb. rewrite <- Hb in Ha. clear Hb Hoa Hob.
    destruct oa as [|? [|? [|? [|? oa]]]], ob as [|? [|? [|? [|? ob]]]];
      simpl in Ha; rewrite ?length_app in Ha; simpl in Ha;
      simplify_eq; try done; simpl; lia. }
  rewrite <- Hb in Ha. clear Hb Hoa Hob.
  destruct oa as [|? [|? [|? [|? oa]]]], ob as [|? [|? [|? [|? ob]]]];
    simpl in Hlen, Ha; simplify_eq; try done.
  do 4 f_equal.
  by match goal with H : _ ++ _ = _ ++ _ |- _ => apply app_inv_tail in H end.
Qed.

Lemma save_item_inj a b o : save_item a = Some o → save_item b = Some o → a = b.
Proof.
  unfold save_item. destruct a as [ka va], b as [kb vb]. simpl.
  destruct (save va) eqn:Ha, (save vb) eqn:Hb; simpl; intros; simplify_eq.
  f_equal. by eapply save_inj.
Qed.

Lemma save_item_length a o : save_item a = Some o → length o = 3%nat.
Proof.
  unfold save_item. destruct (save a.2); simpl; intros; by simplify_eq.
Qed.

Lemma save_items_length d ops :
  mapM save_item d = Some ops → Forall (λ o, length o = 3%nat) ops.
Proof.
  intros H%mapM_Some.
  induction H; constructor; eauto using save_item_length.
Qed.

Lemma concat_inj3 (l1 l2 : list (list opcode)) :
  Forall (λ o, length o = 3%nat) l1 → Forall (λ o, length o = 3%nat) l2 →
  concat l1 = concat l2 → l1 = l2.
Proof.
  intros H1. revert l2. induction H1 as [|o1 l1 Ho1 _ IH]; intros l2 H2 Heq.
  - destruct H2 as [|o2 l2 Ho2 _]; [done|].
    destruct o2; simpl in *; [lia | done].
  - destruct H2 as [|o2 l2 Ho2 H2].
    + destruct o1; simpl in *; [lia | done].
    + simpl in Heq. apply app_inj_1 in Heq as [-> Heq]; [|congruence].
      f_equal. by apply IH.
Qed.

Lemma save_dict_inj a b x :
  save_dict a = Some x → save_dict b = Some x → a = b.
Proof.
  unfold save_dict. intros Ha Hb.
  destruct (mapM save_item a) as [oa|] eqn:Hoa; [|done].
  destruct (mapM save_item b) as [ob|] eqn:Hob; [|done].
  simpl in Ha, Hb.
  assert (oa = ob) as ->; [|by eapply mapM_inj; eauto using save_item_inj].
  pose proof (save_items_length _ _ Hoa) as Hla.
  pose proof (save_items_length _ _ Hob) as Hlb.
  rewrite <- Hb in Ha. clear Hb Hoa Hob. simplify_eq.
  destruct Hla as [|o1 oa Ho1 Hla], Hlb as [|o2 ob Ho2 Hlb].
  - done.
  - destruct Hlb; [destruct o2 | ]; simplify_eq.
  - destruct Hla; [destruct o1 | ]; simplify_eq.
  - destruct Hla as [|o1' oa Ho1' Hla], Hlb as [|o2' ob Ho2' Hlb].
    + apply app_inv_tail in Ha. by subst.
    + apply (f_equal length) in Ha. rewrite length_app in Ha.
      simpl in Ha. repeat rewrite length_app in Ha. simpl in Ha. lia.
    + apply (f_equal length) in Ha. rewrite length_app in Ha.
      simpl in Ha. repeat rewrite length_app in Ha. simpl in Ha. lia.
    + simplify_eq. apply app_inv_tail in Ha.
      change (concat (o1 :: o1' :: oa) = concat (o2 :: o2' :: ob)) in Ha.
      apply concat_inj3 in Ha; [done | by repeat constructor..].
Qed.

(** Two calls have the same key exactly when they have the same
    positional arguments and the same keyword arguments in the same
    order. *)
Lemma make_key_inj a1 k1 a2 k2 key :
  make_key a1 k1 = Some key → make_key a2 k2 = Some key → a1 = a2 ∧ k1 = k2.
Proof.
  unfold make_key, dumps_args, dumps_kwargs. intros H1 H2.
  destruct (save_tuple a1) as [t1|] eqn:Ht1; [|done].
  destruct (save_dict k1) as [d1|] eqn:Hd1; [|done].
  destruct (save_tuple a2) as [t2|] eqn:Ht2; [|done].
  destruct (save_dict k2) as [d2|] eqn:Hd2; [|done].
  simpl in H1, H2. rewrite <- H2 in H1. clear H2. simplify_eq.
  repeat match goal with
         | H : _ ++ [STOP] = _ ++ [STOP] |- _ => apply app_inv_tail in H; subst
         end.
  split; [by eapply save_tuple_inj | by eapply save_dict_inj].
Qed.

(** ** Memoization: the wrapper, call by call *)

Section MemoizeFacts.
Context {St : Type}.
Variable func : list pyobj → list (string * pyobj) → St → result pyobj * St.

Lemma make_key_Some args kwargs key :
  make_key args kwargs = Some key ↔
  dumps_args args = Some key.1 ∧ dumps_kwargs kwargs = Some key.2.
Proof.
  unfold make_key. destruct key as [ka kk].
  destruct (dumps_args args), (dumps_kwargs kwargs); simpl;
    (split; [intros ?; by simplify_eq | intros [? ?]; by simplify_eq]).
Qed.

Lemma wrapper_hit args kwargs key v (m : memo St) :
  make_key args kwargs = Some key →
  cache m !! key = Some v →
  wrapper func args kwargs m = (Ok v, m).
Proof.
  intros [Ha Hk]%make_key_Some Hv. unfold wrapper. rewrite Ha, Hk.
  cbv zeta. rewrite <- surjective_pairing. by rewrite Hv.
Qed.

Lemma wrapper_miss args kwargs key (m : memo St) :
  make_key args kwargs = Some key →
  cache m !! key = None →
  wrapper func args kwargs m
  = let '(r, st) := func args kwargs (fstate m) in
    let log := calls m ++ [(args, kwargs)] in
    match r with
    | Ok value => (Ok value, Memo (<[key := value]> (cache m)) st log)
    | Raise e => (Raise e, Memo (cache m) st log)
    end.
Proof.
  intros [Ha Hk]%make_key_Some Hv. unfold wrapper. rewrite Ha, Hk.
  cbv zeta. rewrite <- surjective_pairing. by rewrite Hv.
Qed.

Lemma wrapper_unpicklable args kwargs (m : memo St) :
  make_key args kwargs = None →
  wrapper func args kwargs m = (Raise PicklingError, m).
Proof.
  unfold make_key, wrapper.
  by destruct (dumps_args args), (dumps_kwargs kwargs).
Qed.








End MemoizeFacts.

(** ** The claims on memoization *)


(** C10 (error atomicity).  When an argument, positional or keyword,
    cannot be pickled, the wrapper raises and the cache, the state of the
    function and the invocations are as before: the function was not
    invoked. *)
Theorem unpicklable_argument_raises {St} func args kwargs (m : memo St) :
  (∃ a, a ∈ args ++ kwargs.*2 ∧ save a = None) →
  wrapper func args kwargs m = (Raise PicklingError, m).
Proof.
  intros (a & Hin & Ha). apply wrapper_unpicklable.
  unfold make_key, dumps_args, dumps_kwargs, save_tuple, save_dict.
  apply elem_of_app in Hin as [Hin|Hin].
  - rewrite (mapM_None_2 save args); [done|].
    apply Exists_exists. eauto.
  - apply list_elem_of_fmap in Hin as ([k a'] & -> & Hin).
    rewrite (mapM_None_2 save_item kwargs).
    + by destruct (mapM save args).
    + apply Exists_exists. exists (k, a'). split; [done|].
      unfold save_item. simpl in *. by rewrite Ha.
Qed.

(** Two calls in a row with different keys: both invoke the function. *)
Lemma two_keys_two_invocations {St} func (st0 : St) a1 k1 a2 k2 key1 key2 :
  make_key a1 k1 = Some key1 → make_key a2 k2 = Some key2 → key1 ≠ key2 →
  calls (run_calls func [(a1, k1); (a2, k2)] (memoize st0))
  = [(a1, k1); (a2, k2)].
Proof.
  intros H1 H2 Hne. simpl.
  rewrite (wrapper_miss func a1 k1 key1) by done.
  destruct (func a1 k1 (fstate (memoize st0))) as [[v|e] st]; simpl.
  - rewrite (wrapper_miss func a2 k2 key2).
    + by destruct (func a2 k2 _) as [[v'|e'] st'].
    + done.
    + simpl. by rewrite lookup_insert_ne.
  - rewrite (wrapper_miss func a2 k2 key2) by done.
    by destruct (func a2 k2 _) as [[v'|e'] st'].
Qed.

(** C4 as stated fails: the call with [a=1, b=2] and the call with
    [b=2, a=1] have different keys; a counting function is invoked for
    both, and the second call returns the second count. *)
Lemma keyword_order_changes_key :
  let c1 := ([], [("a", PyInt 1); ("b", PyInt 2)]) in
  let c2 := ([], [("b", PyInt 2); ("a", PyInt 1)]) in
  make_key c1.1 c1.2 ≠ make_key c2.1 c2.2
  ∧ calls (run_calls counting [c1; c2] (memoize 0%nat)) = [c1; c2]
  ∧ (wrapper counting c2.1 c2.2 (run_calls counting [c1] (memoize 0%nat))).1
    = Ok (PyInt 2).
Proof. split_and!; [by vm_compute | by vm_compute | by vm_compute]. Qed.

(** C4, amended (key distinctness).  Two picklable calls have the same
    key exactly when their positional arguments are the same sequence and
    their keyword arguments are the same sequence, order included.  So
    the calls with [(1, 2)] and [(2, 1)] have distinct keys and each
    invokes the function, and so do the calls with [a=1, b=2] and
    [b=2, a=1]. *)
Theorem key_distinctness {St} func (st0 : St) :
  (∀ a1 k1 a2 k2 key1 key2,
     make_key a1 k1 = Some key1 → make_key a2 k2 = Some key2 →
     key1 = key2 ↔ a1 = a2 ∧ k1 = k2)
  ∧ (let c1 := ([PyInt 1; PyInt 2], []) in
     let c2 := ([PyInt 2; PyInt 1], []) in
     calls (run_calls func [c1; c2] (memoize st0)) = [c1; c2])
  ∧ (let c1 := ([], [("a", PyInt 1); ("b", PyInt 2)]) in
     let c2 := ([], [("b", PyInt 2); ("a", PyInt 1)]) in
     calls (run_calls func [c1; c2] (memoize st0)) = [c1; c2]).
Proof.
  split_and!.
  - intros a1 k1 a2 k2 key1 key2 H1 H2. split.
    + intros <-. by eapply make_key_inj.
    + intros [<- <-]. congruence.
  - eapply two_keys_two_invocations; [by vm_compute | by vm_compute | done].
  - eapply two_keys_two_invocations; [by vm_compute | by vm_compute | done].
Qed.

(** ** Instances of the theorems *)








Lemma unpicklable_argument_raises_witness :
  wrapper counting [PyInt 1; PyLambda] [] (memoize 0%nat)
  = (Raise PicklingError, memoize 0%nat).
Proof.
  apply (unpicklable_argument_raises counting [PyInt 1; PyLambda] []).
  exists PyLambda. split; [|reflexivity]. simpl. right. left.
Defined.

Lemma key_distinctness_witness :
  ([PROTO 4; BININT 1; TUPLE1; MEMOIZE; STOP],
   [PROTO 4; EMPTY_DICT; MEMOIZE; STOP])
  ≠ ([PROTO 4; BININT 2; TUPLE1; MEMOIZE; STOP],
     [PROTO 4; EMPTY_DICT; MEMOIZE; STOP]).
Proof.
  destruct (key_distinctness counting 0%nat) as (H & _ & _).
  intros Heq.
  apply (H [PyInt 1] [] [PyInt 2] []) in Heq; [|reflexivity|reflexivity].
  destruct Heq as [Heq _]. discriminate Heq.
Defined.

(** * More properties of the file-system block *)

(** ** Directories that are made *)

Lemma find_put n p new n' : put n p new = Some n' → find n' p = Some new.
Proof.
  revert n n'. induction p as [|x p IH]; intros n n'; simpl.
  - by intros [= ->].
  - destruct n as [|es]; [done|].
    destruct (assoc x es) as [c|] eqn:Hx.
    + destruct (put c p new) as [c'|] eqn:Hc; [|done].
      intros [= <-]. simpl. rewrite assoc_aset_eq. by eapply IH.
    + destruct p; [|done]. intros [= <-]. simpl. by rewrite assoc_aset_eq.
Qed.

Lemma covers_refl m : covers m m.
Proof. by destruct m. Qed.

Lemma covers_trans m1 m2 m3 : covers m1 m2 → covers m2 m3 → covers m1 m3.
Proof.
  destruct m1 as [c|es]; simpl.
  - by intros ->.
  - destruct m2 as [|es2]; [done|]. by intros _.
Qed.

Lemma extends_refl n : extends n n.
Proof. intros q m Hm. exists m. split; [done | apply covers_refl]. Qed.

Lemma extends_trans n1 n2 n3 : extends n1 n2 → extends n2 n3 → extends n1 n3.
Proof.
  intros H12 H23 q m Hm.
  destruct (H12 q m Hm) as (m2 & Hm2 & Hc2).
  destruct (H23 q m2 Hm2) as (m3 & Hm3 & Hc3).
  exists m3. split; [done | by eapply covers_trans].
Qed.

(** A change at [p] that loses nothing there loses nothing. *)
Lemma upd_extends p : ∀ n f,
  (∀ m, find n p = Some m → extends m (f m)) → extends n (upd n p f).
Proof.
  induction p as [|x p IH]; intros n f Hf; [by apply Hf|].
  simpl. destruct n as [c|es]; [apply extends_refl|].
  destruct (assoc x es) as [c|] eqn:Hx; [|apply extends_refl].
  intros q m Hm. destruct q as [|y q].
  - simpl in Hm. simplify_eq. eexists. by split.
  - simpl in Hm. simpl. destruct (decide (x = y)) as [<-|Hne].
    + rewrite assoc_aset_eq. rewrite Hx in Hm.
      apply (IH c f); [|done]. intros m' Hm'. apply Hf. simpl. by rewrite Hx.
    + rewrite assoc_aset_ne by done.
      destruct (assoc y es) as [c'|]; [|done]. exists m. split; [done|].
      apply covers_refl.
Qed.

Lemma new_entry_extends es t new :
  assoc t es = None → extends (Dir es) (Dir (aset t new es)).
Proof.
  intros Ht q m Hm. destruct q as [|y q].
  - simpl in Hm. simplify_eq. eexists. by split.
  - simpl in *. destruct (decide (t = y)) as [<-|Hne].
    + by rewrite Ht in Hm.
    + rewrite assoc_aset_ne by done. exists m. split; [done|].
      apply covers_refl.
Qed.

Lemma grown_refl p n : grown p n n.
Proof. split; [done | apply extends_refl]. Qed.

Lemma grown_new_dir n h t es :
  find n h = Some (Dir es) → assoc t es = None →
  grown (h ++ [t]) n (upd n h (λ _, Dir (aset t (Dir []) es))).
Proof.
  intros Hh Ht. split.
  - intros q Hq. by apply find_new_dir_frame.
  - apply upd_extends. intros m. rewrite Hh. intros [= <-].
    by apply new_entry_extends.
Qed.

Lemma grown_step h t n1 n2 n3 :
  grown h n1 n2 → grown (h ++ [t]) n2 n3 → grown (h ++ [t]) n1 n3.
Proof.
  intros [Hf1 He1] [Hf2 He2]. split; [|by eapply extends_trans].
  intros q Hq. rewrite Hf2 by done. apply Hf1.
  intros Hqh. apply Hq. etrans; [done|]. by exists [t].
Qed.

(** [os.mkdir]: it makes one new empty directory in a directory that is
    there, or it raises and changes nothing. *)
Lemma mkdir_run E p w res w' :
  mkdir E p w = (res, w') →
  (res = Ok tt ∧ find (root w) p = None
   ∧ ∃ h t es, p = h ++ [t] ∧ find (root w) h = Some (Dir es)
       ∧ assoc t es = None
       ∧ w' = World (upd (root w) h (λ _, Dir (aset t (Dir []) es)))
                (cwd w) (trace w))
  ∨ ((∃ e, res = Raise e) ∧ w' = w).
Proof.
  unfold mkdir. destruct (find (root w) p) as [m|] eqn:Hp.
  { intros [= <- <-]. right. eauto. }
  destruct (find (root w) (removelast p)) as [[c|es]|] eqn:Hh;
    [intros [= <- <-]; right; eauto| |intros [= <- <-]; right; eauto].
  destruct (mkdir_denied E p); [intros [= <- <-]; right; eauto|].
  destruct p as [|t h _] using rev_ind; [done|].
  rewrite removelast_snoc in Hh.
  assert (assoc t es = None) as Ht
    by by rewrite (find_snoc_Dir _ _ _ es) in Hp.
  rewrite (put_new _ _ _ es) by done. unfold set_root.
  intros [= <- <-]. left. split_and!; [done..|]. by exists h, t, es.
Qed.

Lemma mkdir_leaf_run E p ok w res w' :
  mkdir_leaf E p ok w = (res, w') →
  (res = Ok tt ∧ find (root w) p = None
   ∧ ∃ h t es, p = h ++ [t] ∧ find (root w) h = Some (Dir es)
       ∧ assoc t es = None
       ∧ w' = World (upd (root w) h (λ _, Dir (aset t (Dir []) es)))
                (cwd w) (trace w))
  ∨ (w' = w ∧ (res = Ok tt → is_dir (find (root w) p) = true ∧ ok = true)).
Proof.
  unfold mkdir_leaf, try_except.
  destruct (mkdir E p w) as [[[]|e] w1] eqn:Hm;
    apply mkdir_run in Hm as [(? & ? & ?)|[[e' ?] ->]]; simplify_eq.
  - intros [= <- <-]. left. by split_and!.
  - unfold bind, isdir, bind, lookup_path, ret. cbn [resolve abs isabs parts].
    destruct ok, (is_dir (find (root w) p)); simpl; intros [= <- <-];
      right; by split.
Qed.

(** [os.makedirs]: whatever it returns or raises, only the paths down to
    its argument have changed, nothing was lost, and neither the working
    directory nor the trace was touched; when it returns, its argument is
    a directory, an empty one when it was not there before. *)
Lemma makedirs_rev_grown E rn ok : ∀ w res w',
  makedirs_rev E rn ok w = (res, w') →
  cwd w' = cwd w ∧ trace w' = trace w
  ∧ grown (rev rn) (root w) (root w')
  ∧ (res = Ok tt → is_dir (find (root w') (rev rn)) = true)
  ∧ (res = Ok tt → find (root w) (rev rn) = None →
     find (root w') (rev rn) = Some (Dir [])).
Proof.
  assert (Hleaf : ∀ p w res w',
    mkdir_leaf E p ok w = (res, w') →
    cwd w' = cwd w ∧ trace w' = trace w
    ∧ grown p (root w) (root w')
    ∧ (res = Ok tt → is_dir (find (root w') p) = true)
    ∧ (res = Ok tt → find (root w) p = None →
       find (root w') p = Some (Dir []))).
  { intros p w res w' H.
    apply mkdir_leaf_run in H
      as [(-> & Hp & h & t & es & -> & Hh & Ht & ->)|[-> Hok]].
    - cbn [root cwd trace]. split_and!; [done | done | | |].
      + by apply grown_new_dir.
      + intros _. rewrite find_upd_below, Hh. simpl. by rewrite assoc_aset_eq.
      + intros _ _. rewrite find_upd_below, Hh. simpl. by rewrite assoc_aset_eq.
    - split_and!; [done | done | apply grown_refl | |].
      + intros Hres. by apply Hok.
      + intros Hres Hnone. destruct (Hok Hres) as [Hd _].
        by rewrite Hnone in Hd. }
  induction rn as [|t rh IH]; intros w res w'; [apply Hleaf|].
  cbn [makedirs_rev]. unfold bind at 1. rewrite exists_run.
  cbn [resolve abs isabs parts rev]. unfold bind at 1.
  destruct (negb _).
  - unfold try_except.
    destruct (makedirs_rev E rh ok w) as [r1 w1] eqn:Hrec.
    apply IH in Hrec as (Hc1 & Ht1 & Hg1 & _).
    assert (Hcont : mkdir_leaf E (rev rh ++ [t]) ok w1 = (res, w') →
      cwd w' = cwd w ∧ trace w' = trace w
      ∧ grown (rev rh ++ [t]) (root w) (root w')
      ∧ (res = Ok tt → is_dir (find (root w') (rev rh ++ [t])) = true)
      ∧ (res = Ok tt → find (root w) (rev rh ++ [t]) = None →
         find (root w') (rev rh ++ [t]) = Some (Dir []))).
    { intros Hl. apply Hleaf in Hl as (Hc2 & Ht2 & Hg2 & Hd2 & Hn2).
      split_and!; [congruence | congruence | | done |].
      - by eapply grown_step.
      - intros Hres Hnone. apply Hn2; [done|].
        destruct Hg1 as [Hf1 _]. rewrite Hf1; [done|]. apply prefix_snoc_not. }
    destruct r1 as [[]|e]; [exact Hcont|].
    destruct e; unfold ret, raise; try exact Hcont;
      (intros [= <- <-]; split_and!; try done;
       eapply grown_step; [done | apply grown_refl]).
  - unfold ret. intros Hl.
    by apply Hleaf in Hl as (Hc2 & Ht2 & Hg2 & Hd2 & Hn2).
Qed.

Lemma makedirs_grown E p ok w res w' :
  makedirs E p ok w = (res, w') →
  cwd w' = cwd w ∧ trace w' = trace w
  ∧ grown p (root w) (root w')
  ∧ (res = Ok tt → is_dir (find (root w') p) = true)
  ∧ (res = Ok tt → find (root w) p = None → find (root w') p = Some (Dir [])).
Proof.
  unfold makedirs. intros H%makedirs_rev_grown.
  by rewrite rev_involutive in H.
Qed.

Lemma makedirs_rev_taken E rn ok m w :
  find (root w) (rev rn) = Some m →
  is_dir (Some m) = false ∨ ok = false →
  makedirs_rev E rn ok w = (Raise FileExistsError, w).
Proof.
  intros Hm Hwhy.
  assert (mkdir_leaf E (rev rn) ok w = (Raise FileExistsError, w)) as Hleaf.
  { unfold mkdir_leaf, try_except, mkdir. rewrite Hm.
    unfold bind, isdir, bind, lookup_path, ret. cbn [resolve abs isabs parts].
    rewrite Hm. by destruct Hwhy as [->| ->]; [rewrite orb_true_r|]. }
  destruct rn as [|t rh]; [done|].
  cbn [makedirs_rev]. unfold bind at 1. rewrite exists_run.
  cbn [resolve abs isabs parts].
  rewrite bool_decide_eq_true_2.
  - unfold bind. by cbn [negb ret].
  - simpl in Hm. apply (find_prefix_Some _ _ [t]). rewrite Hm. eauto.
Qed.

(** (createDir) When [createDir] returns a path, it is the absolute path
    of its argument and a directory is there afterwards; the working
    directory is as before.  This holds in every environment. *)
Theorem createDir_makes_directory E dirPath existOk w p :
  let w' := after (createDir E dirPath existOk) w in
  outcome (createDir E dirPath existOk) w = Ok (Some p) →
  p = abs (resolve w dirPath)
  ∧ is_dir (find (root w') (resolve w dirPath)) = true
  ∧ cwd w' = cwd w.
Proof.
  unfold outcome, after. rewrite createDir_run. cbv zeta.
  destruct (makedirs E _ existOk _) as [[[]|e] w1] eqn:Hm; [|done].
  apply makedirs_grown in Hm as (Hc & _ & _ & Hd & _).
  intros [= <-]. cbn [snd]. split_and!; [done | by apply Hd | done].
Qed.

(** (createDir) Whatever [createDir] returns, in every environment: a
    path that is not the argument or one of its ancestors resolves as
    before, and whatever was in the tree is still there, every file with
    its content. *)
Theorem createDir_only_grows E dirPath existOk w :
  let w' := after (createDir E dirPath existOk) w in
  (∀ q, ¬ q `prefix_of` resolve w dirPath →
     find (root w') q = find (root w) q)
  ∧ extends (root w) (root w').
Proof.
  unfold after. rewrite createDir_run. cbv zeta.
  destruct (makedirs E _ existOk _) as [[[]|e] w1] eqn:Hm;
    by apply makedirs_grown in Hm as (_ & _ & Hg & _).
Qed.

(** (createDir) When the path is taken by a file, or by anything while
    [existOk] is false, [createDir] returns [None], logs the
    [FileExistsError] and leaves the tree as it is. *)
Theorem createDir_taken E dirPath existOk m w :
  let p := resolve w dirPath in
  let w' := after (createDir E dirPath existOk) w in
  find (root w) p = Some m →
  is_dir (Some m) = false ∨ existOk = false →
  outcome (createDir E dirPath existOk) w = Ok None
  ∧ root w' = root w
  ∧ last (trace w') = Some (LogError p FileExistsError).
Proof.
  intros p w' Hm Hwhy. unfold w', outcome, after. rewrite createDir_run.
  cbv zeta. fold p. unfold makedirs.
  rewrite (makedirs_rev_taken E (rev p) existOk m);
    [|by rewrite rev_involutive | done].
  cbn [fst snd root trace]. by rewrite last_snoc.
Qed.

(** (createDir, isEmptyDir) A directory that [createDir] has made where
    nothing was is empty: [isEmptyDir] returns [True] on it. *)
Theorem createDir_new_is_empty E dirPath existOk w p :
  find (root w) (resolve w dirPath) = None →
  outcome (createDir E dirPath existOk) w = Ok (Some p) →
  outcome (isEmptyDir dirPath) (after (createDir E dirPath existOk) w)
  = Ok true.
Proof.
  unfold outcome, after. rewrite createDir_run. cbv zeta.
  destruct (makedirs E _ existOk _) as [[[]|e] w1] eqn:Hm; [|done].
  apply makedirs_grown in Hm as (Hc & _ & _ & _ & Hn).
  intros Hnone _. cbn [snd]. unfold isEmptyDir, bind. rewrite listdir_run.
  unfold resolve in *. rewrite Hc. cbn [cwd] in *.
  by rewrite (Hn eq_refl Hnone).
Qed.

(** ** The walk of a directory *)

Lemma walk_below_elem top es p :
  p ∈ walk_below top es ↔ ∃ x c, (x, c) ∈ es ∧ p ∈ walk (top ++ [x]) c.
Proof.
  unfold walk_below. induction es as [|[x c] es IH]; simpl.
  - split; [by intros ?%elem_of_nil | by intros (? & ? & ?%elem_of_nil & _)].
  - rewrite elem_of_app, IH. split.
    + intros [H|(y & k & Hin & H)].
      * exists x, c. split; [left | done].
      * exists y, k. split; [by right | done].
    + intros (y & k & [Heq|Hin]%elem_of_cons & H).
      * simplify_eq. by left.
      * right. eauto.
Qed.

Lemma top_names_elem top (es : list (name * node)) p :
  p ∈ map (λ d, top ++ [d]) (dir_names es)
      ++ map (λ f, top ++ [f]) (file_names es)
  ↔ ∃ x, x ∈ dir_names es ++ file_names es ∧ p = top ++ [x].
Proof.
  rewrite !elem_of_app.
  change (map (λ d, top ++ [d])) with (fmap (M:=list) (λ d : name, top ++ [d])).
  rewrite !list_elem_of_fmap. split.
  - intros [(x & -> & H)|(x & -> & H)]; exists x; rewrite elem_of_app; eauto.
  - intros (x & [H|H]%elem_of_app & ->); eauto.
Qed.

(** What the walk lists, for a tree with unique names: the paths below
    [top] that resolve in the tree. *)
Lemma walk_elem n : ∀ top p,
  wf n = true →
  p ∈ walk top n ↔ ∃ q, q ≠ [] ∧ is_Some (find n q) ∧ p = top ++ q.
Proof.
  induction n as [c|es IH] using node_ind; intros top p Hwf.
  - simpl. split; [by intros ?%elem_of_nil|].
    intros ([|x q] & Hq & [m Hm] & _); done.
  - apply wf_Dir in Hwf as [Hnd Hall].
    rewrite Forall_forall in IH, Hall.
    rewrite walk_Dir, (assoc_L (++)), elem_of_app, top_names_elem,
      walk_below_elem.
    split.
    + intros [(x & Hx & ->)|(x & c & Hin & Hp)].
      * exists [x]. split; [done|]. split; [|done].
        apply names_split_assoc in Hx as [c Hc]. simpl. rewrite Hc. eauto.
      * apply (IH (x, c) Hin) in Hp as (q & Hq & Hs & ->);
          [|by apply (Hall (x, c))].
        exists (x :: q). split; [done|]. split.
        -- simpl. by rewrite (assoc_NoDup x c es Hnd Hin).
        -- by rewrite <- (assoc_L (++)).
    + intros ([|x q] & Hq & Hs & ->); [done|]. simpl in Hs.
      destruct (assoc x es) as [c|] eqn:Hc; [|by destruct Hs].
      apply assoc_Some_elem in Hc as Hin.
      destruct q as [|y q].
      * left. exists x. split; [by eapply names_split | done].
      * right. exists x, c. split; [done|].
        apply (IH (x, c) Hin); [by apply (Hall (x, c))|].
        exists (y :: q). split; [done|]. split; [done|].
        by rewrite <- (assoc_L (++)).
Qed.

Lemma kinds_NoDup (es : list (name * node)) :
  NoDup es.*1 → NoDup (dir_names es ++ file_names es).
Proof.
  intros Hnd. unfold dir_names, file_names. apply NoDup_app. split_and!.
  - eapply sublist_NoDup; [exact Hnd | apply fmap_sublist, sublist_filter].
  - intros x [[y c] [Hx [Hc Hin]%list_elem_of_filter]]%list_elem_of_fmap
             [[y' c'] [Hx' [Hc' Hin']%list_elem_of_filter]]%list_elem_of_fmap.
    simpl in *. subst y y'.
    apply (assoc_NoDup _ _ _ Hnd) in Hin, Hin'.
    rewrite Hin in Hin'. simplify_eq. by destruct c'.
  - eapply sublist_NoDup; [exact Hnd | apply fmap_sublist, sublist_filter].
Qed.

Lemma walk_below_NoDup top es :
  NoDup es.*1 →
  Forall (λ e, wf e.2 = true) es →
  Forall (λ e, ∀ top, NoDup (walk top e.2)) es →
  NoDup (walk_below top es).
Proof.
  unfold walk_below.
  induction es as [|[x c] es IH]; simpl; [constructor|].
  intros [Hx Hnd]%NoDup_cons [Hwf Hall]%Forall_cons [Hc Hrest]%Forall_cons.
  apply NoDup_app. split_and!; [apply Hc | | by apply IH].
  intros p Hp Hp'.
  apply walk_elem in Hp as (q & _ & _ & ->); [|done].
  apply (walk_below_elem top es) in Hp' as (y & k & Hin & Hp').
  rewrite Forall_forall in Hall.
  apply walk_elem in Hp' as (q' & _ & _ & Heq); [|by apply (Hall (y, k))].
  rewrite <- !(assoc_L (++)) in Heq. apply app_inv_head in Heq.
  simplify_eq/=. apply Hx, list_elem_of_fmap. by exists (y, k).
Qed.

Lemma walk_NoDup n : ∀ top, wf n = true → NoDup (walk top n).
Proof.
  induction n as [c|es IH] using node_ind; intros top Hwf; [constructor|].
  apply wf_Dir in Hwf as Hparts. destruct Hparts as [Hnd Hall].
  rewrite walk_Dir, (assoc_L (++)). apply NoDup_app. split_and!.
  - rewrite <- map_app.
    change (map (λ d, top ++ [d])) with (fmap (M:=list) (λ d : name, top ++ [d])).
    apply NoDup_fmap_2; [|by apply kinds_NoDup].
    intros x y Heq. apply app_inv_head in Heq. by simplify_eq.
  - intros p (x & _ & ->)%top_names_elem
      (y & k & Hin & Hp)%walk_below_elem.
    rewrite Forall_forall in Hall.
    apply walk_elem in Hp as ([|z q] & Hq & _ & Heq);
      [done | | by apply (Hall (y, k))].
    rewrite <- (assoc_L (++)) in Heq. apply app_inv_head in Heq. done.
  - apply walk_below_NoDup; [done | done |].
    rewrite Forall_forall in IH, Hall. apply Forall_forall.
    intros [y k] Hin top'. apply (IH (y, k) Hin). by apply (Hall (y, k)).
Qed.

Lemma before_within {A} (l0 l l3 : list A) a b :
  before l a b → before (l0 ++ l ++ l3) a b.
Proof.
  intros (l1 & l2 & -> & Ha & Hb). exists (l0 ++ l1), (l2 ++ l3).
  rewrite <- !(assoc_L (++)). split; [done|].
  rewrite !elem_of_app. auto.
Qed.

(** The walk is top down: a directory comes before what is below it. *)
Lemma walk_top_down n : ∀ top p q,
  wf n = true →
  p ∈ walk top n → q ≠ [] → p ++ q ∈ walk top n →
  before (walk top n) p (p ++ q).
Proof.
  induction n as [c|es IH] using node_ind; intros top p q Hwf Hp Hq Hpq.
  { by apply elem_of_nil in Hp. }
  apply wf_Dir in Hwf as Hparts. destruct Hparts as [Hnd Hall].
  rewrite Forall_forall in IH, Hall.
  assert (∀ x r, r ≠ [] → top ++ x :: r ∈ walk top (Dir es) →
          ∃ c, (x, c) ∈ es ∧ top ++ x :: r ∈ walk (top ++ [x]) c
               ∧ top ++ x :: r ∈ walk_below top es) as Hdeep.
  { intros x r Hr Hin. rewrite walk_Dir, (assoc_L (++)), elem_of_app in Hin.
    destruct Hin as [(y & _ & Heq)%top_names_elem|Hin].
    { apply app_inv_head in Heq. by simplify_eq. }
    apply walk_below_elem in Hin as Hin'.
    destruct Hin' as (y & k & Hyk & Hyp).
    apply walk_elem in Hyp as Hyq; [|by apply (Hall (y, k))].
    destruct Hyq as (r' & _ & _ & Heq).
    rewrite <- (assoc_L (++)) in Heq. apply app_inv_head in Heq.
    simplify_eq/=. eauto. }
  apply walk_elem in Hp as Hp'; [|done].
  destruct Hp' as ([|x r] & Hr & _ & ->); [done|].
  rewrite <- (assoc_L (++)) in Hpq |- *.
  rewrite <- app_comm_cons in Hpq |- *.
  destruct (Hdeep x (r ++ q)) as (c & Hin & Hcq & Hbq); [|done|].
  { by destruct r. }
  destruct r as [|y r].
  - rewrite walk_Dir, (assoc_L (++)) in Hp |- *.
    apply elem_of_app in Hp as [Hp|Hp].
    + eexists _, _. split; [done|]. by split.
    + apply walk_below_elem in Hp as (z & k & Hzk & Hzp).
      apply walk_elem in Hzp as ([|? ?] & ? & _ & Heq);
        [done | | by apply (Hall (z, k))].
      rewrite <- (assoc_L (++)) in Heq. apply app_inv_head in Heq. done.
  - destruct (Hdeep x (y :: r)) as (c' & Hin' & Hcp & _); [done | done|].
    assert (c' = c) as ->.
    { apply (assoc_NoDup _ _ _ Hnd) in Hin, Hin'.
    rewrite Hin in Hin'. simplify_eq. by destruct c'. }
    pose proof (IH (x, c) Hin (top ++ [x]) (top ++ x :: y :: r) q
                  (Hall (x, c) Hin) Hcp Hq) as Hb.
    rewrite <- (assoc_L (++)) in Hb. simpl in Hb. specialize (Hb Hcq).
    apply list_elem_of_split in Hin as (e1 & e2 & ->).
    rewrite walk_Dir. unfold walk_below. rewrite flat_map_app.
    cbn [flat_map fst snd].
    set (A := map _ (dir_names _)). set (B := map _ (file_names _)).
    pose proof (before_within (A ++ B ++ flat_map
                  (λ e, walk (top ++ [e.1]) e.2) e1) _
                  (flat_map (λ e, walk (top ++ [e.1]) e.2) e2) _ _ Hb) as H.
    repeat rewrite <- app_assoc in H. exact H.
Qed.

Lemma getAllFilePaths_run directory w :
  getAllFilePaths directory w
  = (Ok (PyPath (isabs directory)
           <$> match find (root w) (resolve w directory) with
               | Some n => walk (parts directory) n
               | None => []
               end), w).
Proof.
  unfold getAllFilePaths, bind, lookup_path.
  by destruct (find (root w) (resolve w directory)).
Qed.

Lemma resolve_join w directory q :
  resolve w (join directory (rel q)) = resolve w directory ++ q.
Proof.
  unfold resolve, join. simpl. destruct (isabs directory); [done|].
  by rewrite (assoc_L (++)).
Qed.

(** (getAllFilePaths) On a tree with unique entry names, the generator
    never raises and changes nothing; it yields each path once, and the
    paths it yields are exactly [directory] joined with a relative path of
    at least one component at which something is.  So it yields nothing
    for a directory that is missing, empty, or a file. *)
Theorem getAllFilePaths_exact directory w :
  wf (root w) = true →
  ∃ l, getAllFilePaths directory w = (Ok l, w)
     ∧ NoDup l
     ∧ ∀ p, p ∈ l ↔ ∃ q, q ≠ [] ∧ p = join directory (rel q)
                         ∧ is_Some (find (root w) (resolve w p)).
Proof.
  intros Hwf. rewrite getAllFilePaths_run. eexists. split; [done|].
  assert (Inj (=) (=) (PyPath (isabs directory))) as Hinj.
  { by intros a b [= ->]. }
  destruct (find (root w) (resolve w directory)) as [n|] eqn:Hn.
  - pose proof (wf_find _ _ _ Hwf Hn) as Hwfn. split.
    + by apply NoDup_fmap_2, walk_NoDup.
    + intros p. rewrite list_elem_of_fmap. split.
      * intros (r & -> & (q & Hq & Hs & ->)%walk_elem); [|done].
        exists q. split; [done|]. split; [done|].
        change (PyPath _ (_ ++ q)) with (join directory (rel q)).
        by rewrite resolve_join, find_app, Hn.
      * intros (q & Hq & -> & Hs).
        rewrite resolve_join, find_app, Hn in Hs.
        exists (parts directory ++ q). split; [done|].
        apply walk_elem; [done|]. eauto.
  - split; [constructor|]. intros p. split; [by intros ?%elem_of_nil|].
    intros (q & _ & -> & Hs). rewrite resolve_join, find_app, Hn in Hs.
    by destruct Hs.
Qed.

(** (getAllFilePaths) The generator goes top down: on a tree with unique
    entry names, a path is yielded before every path below it.  A consumer
    that makes the directories as they come has made a directory before it
    meets its entries. *)
Theorem getAllFilePaths_top_down directory w l p q :
  wf (root w) = true →
  outcome (getAllFilePaths directory) w = Ok l →
  p ∈ l → q ≠ [] → join p (rel q) ∈ l →
  before l p (join p (rel q)).
Proof.
  intros Hwf. unfold outcome. rewrite getAllFilePaths_run. intros [= <-].
  destruct (find (root w) (resolve w directory)) as [n|] eqn:Hn;
    [|by intros ?%elem_of_nil].
  pose proof (wf_find _ _ _ Hwf Hn) as Hwfn.
  intros (r & -> & Hr)%list_elem_of_fmap Hq
         (r' & Heq & Hr')%list_elem_of_fmap.
  unfold join in Heq |- *. simpl in Heq |- *. simplify_eq.
  destruct (walk_top_down n (parts directory) r q Hwfn Hr Hq Hr')
    as (l1 & l2 & Hl & H1 & H2).
  exists (PyPath (isabs directory) <$> l1), (PyPath (isabs directory) <$> l2).
  rewrite Hl, fmap_app. split; [done|].
  split; apply list_elem_of_fmap; eauto.
Qed.

(** ** What no run deletes, and where a run writes *)







Lemma find_put_apart p : ∀ n n' new q,
  put n p new = Some n' → apart p q → find n' q = find n q.
Proof.
  induction p as [|x p IH]; intros n n' new q Hput Hpq.
  { destruct Hpq as [[] _]. apply prefix_nil. }
  destruct q as [|y q].
  { destruct Hpq as [_ []]. apply prefix_nil. }
  simpl in Hput. destruct n as [c|es]; [done|].
  destruct (assoc x es) as [c|] eqn:Hx.
  - destruct (put c p new) as [c'|] eqn:Hc; [|done].
    simplify_eq. simpl. destruct (decide (x = y)) as [<-|Hne].
    + rewrite assoc_aset_eq, Hx. eapply IH; [done|]. by eapply apart_cons.
    + by rewrite assoc_aset_ne.
  - destruct p; [|done]. simplify_eq. simpl.
    destruct (decide (x = y)) as [<-|Hne].
    + destruct Hpq as [[] _]. by exists q.
    + by rewrite assoc_aset_ne.
Qed.









Section Steady.
Context (R : node → node → Prop).
Hypothesis R_refl : ∀ n, R n n.
Hypothesis R_trans : ∀ n1 n2 n3, R n1 n2 → R n2 n3 → R n1 n3.









End Steady.





(** * The counter and the line numbers *)

Lemma getUniqueId_times_run n : ∀ c,
  getUniqueId_times n c
  = ((λ i, c + 1 + Z.of_nat i) <$> seq 0 n, c + Z.of_nat n).
Proof.
  induction n as [|n IH]; intros c.
  - simpl. f_equal. lia.
  - cbn [getUniqueId_times getUniqueId]. rewrite IH. cbn [seq fmap list_fmap].
    f_equal; [|lia]. f_equal; [lia|].
    rewrite <- fmap_S_seq, <- list_fmap_compose.
    apply list_fmap_ext. intros _ i _. simpl. lia.
Qed.

(** (getUniqueId) The identifiers of successive calls are the integers
    that follow the counter, in order: the call number [i], from 0, returns
    the counter at the start plus [i + 1].  So no two calls return the same
    identifier, and a later call returns a larger one. *)
Theorem getUniqueId_unique n c :
  let ids := (getUniqueId_times n c).1 in
  NoDup ids
  ∧ length ids = n
  ∧ ∀ i j x y, ids !! i = Some x → ids !! j = Some y →
      (x = c + 1 + Z.of_nat i) ∧ ((i < j)%nat → x < y).
Proof.
  rewrite getUniqueId_times_run. cbn [fst].
  assert (∀ i x, ((λ i, c + 1 + Z.of_nat i) <$> seq 0 n) !! i = Some x →
          x = c + 1 + Z.of_nat i) as Hat.
  { intros i x. rewrite list_lookup_fmap.
    destruct (seq 0 n !! i) as [k|] eqn:Hk; [|done].
    apply lookup_seq in Hk as [-> _]. by intros [= <-]. }
  split_and!.
  - apply NoDup_fmap_2; [|apply NoDup_seq]. intros i j. lia.
  - by rewrite length_fmap, length_seq.
  - intros i j x y Hx%Hat Hy%Hat. split; [done | lia].
Qed.

Lemma str_index_in s i c :
  String.list_ascii_of_string s !! i = Some c →
  str_index s (Z.of_nat i) = Some c.
Proof.
  intros Hc. unfold str_index. apply lookup_lt_Some in Hc as Hlt.
  rewrite bool_decide_eq_true_2 by lia. by rewrite Nat2Z.id.
Qed.

Lemma str_index_end s : str_index s (len s) = None.
Proof.
  unfold str_index, len. rewrite bool_decide_eq_false_2 by lia.
  by rewrite bool_decide_eq_false_2 by lia.
Qed.

Lemma count_lines_app linesep s l1 : ∀ l2 g,
  count_lines linesep s (l1 ++ l2) g
  = match count_lines linesep s l1 g with
    | (Returns _, g') => count_lines linesep s l2 g'
    | (Raises e, g') => (Raises e, g')
    end.
Proof.
  induction l1 as [|i l1 IH]; intros l2 g; simpl; [done|].
  destruct (str_index s i); [apply IH | done].
Qed.

(** The loop over indices within the string: the separators met are
    added to the count. *)
Lemma count_lines_within linesep s k : ∀ a g,
  (a + k ≤ length (String.list_ascii_of_string s))%nat →
  count_lines linesep s (seqZ (Z.of_nat a) (Z.of_nat k)) g
  = (Returns tt,
     LineCache (lastStr g) (lastPos g)
       (lastLineCount g
        + Z.of_nat (length (filter (λ c, String c EmptyString = linesep)
                     (take k (drop a (String.list_ascii_of_string s))))))).
Proof.
  induction k as [|k IH]; intros a g Hk.
  - rewrite seqZ_nil by lia. simpl. destruct g. simpl. do 2 f_equal. lia.
  - rewrite seqZ_cons by lia. cbn [count_lines].
    destruct (String.list_ascii_of_string s !! a) as [c|] eqn:Hc.
    2:{ apply lookup_ge_None in Hc. lia. }
    rewrite (str_index_in s a c Hc).
    replace (Z.succ (Z.of_nat a)) with (Z.of_nat (Datatypes.S a)) by lia.
    replace (Z.pred (Z.of_nat (Datatypes.S k))) with (Z.of_nat k) by lia.
    rewrite IH by lia.
    rewrite (drop_S _ c a Hc). cbn [take]. rewrite filter_cons.
    destruct (decide (String c EmptyString = linesep)); cbn [length].
    + simpl. do 2 f_equal. lia.
    + done.
Qed.

Lemma count_lines_from_start linesep s pos g :
  pos ≤ len s →
  count_lines linesep s (seqZ 0 pos) g
  = (Returns tt,
     LineCache (lastStr g) (lastPos g)
       (lastLineCount g + separators linesep s pos)).
Proof.
  intros Hpos. unfold len in Hpos. destruct (decide (pos ≤ 0)) as [Hneg|Hp].
  - rewrite seqZ_nil by done. unfold separators.
    replace (Z.to_nat pos) with 0%nat by lia. simpl. destruct g; simpl.
    do 2 f_equal. lia.
  - pose proof (count_lines_within linesep s (Z.to_nat pos) 0 g) as H.
    rewrite Z2Nat.id in H by lia. rewrite drop_0 in H. apply H. lia.
Qed.

Lemma count_lines_beyond linesep s pos g :
  len s < pos →
  ∃ g', count_lines linesep s (seqZ 0 pos) g = (Raises IndexError, g')
        ∧ lastStr g' = lastStr g ∧ lastPos g' = lastPos g.
Proof.
  intros Hpos. assert (0 ≤ len s) as H0 by (unfold len; lia).
  replace pos with (len s + (pos - len s)) by lia.
  rewrite seqZ_app by lia. rewrite count_lines_app.
  rewrite count_lines_from_start by lia.
  rewrite seqZ_cons by lia. cbn [count_lines]. rewrite Z.add_0_l.
  rewrite str_index_end. eauto.
Qed.

Lemma calcLineNum_run linesep s pos g :
  lastPos g = 0 → pos ≤ len s →
  calcLineNum linesep s pos g
  = let count := (if decide (s ≠ lastStr g) then 1 else lastLineCount g)
                 + separators linesep s pos in
    (Returns count, LineCache s 0 count).
Proof.
  intros Hg Hpos. unfold calcLineNum.
  destruct (decide (s ≠ lastStr g)) as [Hs|Hs%dec_stable].
  - cbn [lastPos]. rewrite Z.sub_0_r. by rewrite count_lines_from_start.
  - rewrite Hg, Z.sub_0_r, count_lines_from_start by done.
    cbv zeta. by rewrite Hg, Hs.
Qed.

Lemma calcLineNum_run_new linesep s pos g :
  s ≠ lastStr g → pos ≤ len s →
  calcLineNum linesep s pos g
  = (Returns (1 + separators linesep s pos),
     LineCache s 0 (1 + separators linesep s pos)).
Proof.
  intros Hs Hpos. unfold calcLineNum. rewrite decide_True by done.
  cbn [lastPos]. rewrite Z.sub_0_r.
  by rewrite count_lines_from_start.
Qed.

(** (calcLineNum) A call with a string other than the last one, and a
    position that is not beyond its end, returns the line number of the
    position: one more than the number of line separators before it. *)
Theorem calcLineNum_new_string linesep s pos g :
  s ≠ lastStr g → pos ≤ len s →
  (calcLineNum linesep s pos g).1 = Returns (1 + separators linesep s pos)
  ∧ (calcLineNum linesep s pos g).2
    = LineCache s 0 (1 + separators linesep s pos).
Proof. intros Hs Hpos. by rewrite calcLineNum_run_new. Qed.

(** (calcLineNum) The cache does not do what the docstring says.  After a
    call for a string, a second call for the same string does not start
    from the last position: [lastPos] is never advanced, the loop runs
    from the start again and adds its separators to the count of the first
    call.  So the second call returns the line number of its position plus
    the number of separators before the first position. *)
Theorem calcLineNum_same_string linesep s pos1 pos2 g :
  s ≠ lastStr g → pos1 ≤ len s → pos2 ≤ len s →
  let '(r1, g1) := calcLineNum linesep s pos1 g in
  let '(r2, g2) := calcLineNum linesep s pos2 g1 in
  r1 = Returns (1 + separators linesep s pos1)
  ∧ r2 = Returns (1 + separators linesep s pos2 + separators linesep s pos1)
  ∧ lastPos g2 = 0.
Proof.
  intros Hs H1 H2. rewrite calcLineNum_run_new by done.
  rewrite calcLineNum_run by done. cbn [lastStr lastLineCount].
  rewrite decide_False by (by intros []).
  cbv zeta. cbn [lastPos]. split_and!; [done | f_equal; lia | done].
Qed.

(** (calcLineNum) A position beyond the end of the string raises
    [IndexError], from the state the module starts in and from every state
    a call can leave ([lastPos] is 0 in all of them, and stays 0). *)
Theorem calcLineNum_beyond_end linesep s pos g :
  lastPos g = 0 → len s < pos →
  (calcLineNum linesep s pos g).1 = Raises IndexError
  ∧ lastPos (calcLineNum linesep s pos g).2 = 0.
Proof.
  intros Hg Hpos. unfold calcLineNum.
  set (g0 := if decide (s ≠ lastStr g) then _ else g).
  assert (lastPos g0 = 0) as H0 by (unfold g0; by destruct (decide _)).
  rewrite H0, Z.sub_0_r.
  destruct (count_lines_beyond linesep s pos g0 Hpos) as (g' & -> & _ & Hp).
  cbn [fst snd]. split; [done | congruence].
Qed.

(** (calcLineNum) A character of the string is compared with the whole of
    [os.linesep].  Where the separator is not one character (as the
    carriage return and line feed of Windows), no character is ever equal
    to it: for a string other than the last one, every position within it
    is on line 1. *)
Theorem calcLineNum_long_linesep linesep s pos g :
  String.length linesep ≠ 1%nat →
  s ≠ lastStr g → pos ≤ len s →
  (calcLineNum linesep s pos g).1 = Returns 1.
Proof.
  intros Hsep Hs Hpos. rewrite calcLineNum_run_new by done. cbn [fst].
  assert (separators linesep s pos = 0) as ->; [|done].
  unfold separators.
  assert (∀ l, filter (λ c, String c EmptyString = linesep) l = []) as ->;
    [|done].
  induction l as [|c l IH]; [done|]. rewrite filter_cons, IH.
  rewrite decide_False; [done|]. by intros <-.
Qed.

(** * Files read and written *)

Lemma locate_find n p m : locate n p = Returns m ↔ find n p = Some m.
Proof.
  revert n. induction p as [|x p IH]; intros n; simpl.
  - split; by intros [= ->].
  - destruct n as [c|es]; [done|]. destruct (assoc x es); [apply IH | done].
Qed.

Lemma locate_app n h q :
  locate n (h ++ q)
  = match locate n h with
    | Returns m => locate m q
    | Raises e => Raises e
    end.
Proof.
  revert n. induction h as [|x h IH]; intros n; simpl; [done|].
  destruct n as [c|es]; [done|]. destruct (assoc x es); [apply IH | done].
Qed.

Lemma put_put p : ∀ n n' x y,
  put n p x = Some n' → put n' p y = put n p y.
Proof.
  induction p as [|t p IH]; intros n n' x y; simpl; [by intros [= <-]|].
  destruct n as [c|es]; [done|].
  destruct (assoc t es) as [c|] eqn:Ht.
  - destruct (put c p x) as [c'|] eqn:Hc; [|done]. intros [= <-].
    rewrite assoc_aset_eq, (IH _ _ _ y Hc).
    destruct (put c p y); [|done]. by rewrite aset_aset.
  - destruct p; [|done]. intros [= <-].
    rewrite assoc_aset_eq. simpl. by rewrite aset_aset.
Qed.

Lemma put_None p : ∀ n x y, put n p x = None → put n p y = None.
Proof.
  induction p as [|t p IH]; intros n x y; simpl; [done|].
  destruct n as [c|es]; [done|].
  destruct (assoc t es) as [c|] eqn:Ht.
  - destruct (put c p x) eqn:Hc; [done|]. by rewrite (IH _ _ y Hc).
  - by destruct p.
Qed.

Lemma open_for_writing_writable n p :
  writable n p → ∃ o, open_for_writing n p = Returns o
                      ∧ is_Some (put n p (File (default EmptyString o))).
Proof.
  unfold open_for_writing. intros [[old Hold]|[Hnone Hdir]].
  - apply locate_find in Hold as Hl. rewrite Hl. exists (Some old).
    split; [done|]. rewrite put_upd; eauto.
  - destruct (find n (removelast p)) as [[|es]|] eqn:Hh; try done.
    destruct (exists_last (l := p)) as (h & t & ->).
    { intros ->. simpl in Hnone. done. }
    rewrite removelast_snoc in Hh |- *.
    pose proof (find_snoc_Dir n h t es Hh) as Ht. rewrite Hnone in Ht.
    apply locate_find in Hh as Hl.
    rewrite locate_app, Hl. simpl. rewrite <- Ht.
    exists None. split; [done|]. rewrite (put_new n h t es); eauto.
Qed.

(** (writeToFile) Where a file can be written (a file is there, or
    nothing is and the directory is there), [writeToFile] returns; the
    path then holds a file with exactly the content given, the working
    directory is as before, and a path on which the file's path does not
    lie, and which does not lie below it, resolves as before. *)
Theorem writeToFile_writes fileName content w :
  let p := resolve w fileName in
  let w' := (writeToFile fileName content w).2 in
  writable (root w) p →
  (writeToFile fileName content w).1 = Returns tt
  ∧ find (root w') p = Some (File content)
  ∧ cwd w' = cwd w
  ∧ ∀ q, apart p q → find (root w') q = find (root w) q.
Proof.
  intros p w' Hw. unfold w', writeToFile. fold p.
  destruct (open_for_writing_writable _ _ Hw) as (o & -> & [r Hr]).
  unfold store.
  destruct (put (root w) p (File content)) as [r'|] eqn:Hput.
  2:{ by rewrite (put_None _ _ _ (File (default EmptyString o)) Hput) in Hr. }
  cbn [fst snd root cwd]. split_and!; [done | by eapply find_put | done |].
  intros q Hq. by eapply find_put_apart.
Qed.

(** (writeToFile) Where no file can be written, [writeToFile] raises and
    changes nothing: [IsADirectoryError] when the path is a directory,
    [NotADirectoryError] or [FileNotFoundError] otherwise. *)
Theorem writeToFile_refuses fileName content w :
  let p := resolve w fileName in
  ¬ writable (root w) p →
  ∃ e, writeToFile fileName content w = (Raises e, w)
       ∧ (e = IsADirectoryError ↔ is_dir (find (root w) p) = true)
       ∧ (e ≠ IsADirectoryError →
          e = Exn NotADirectoryError ∨ e = Exn FileNotFoundError).
Proof.
  intros p Hw. unfold writeToFile, open_for_writing. fold p.
  assert (∀ n q, (∃ m, locate n q = Returns m)
                 ∨ locate n q = Raises (Exn NotADirectoryError)
                 ∨ locate n q = Raises (Exn FileNotFoundError)) as Hcases.
  { intros n q. revert n. induction q as [|x q IH]; intros n; simpl; [eauto|].
    destruct n as [|es]; [auto|]. destruct (assoc x es); auto. }
  destruct (Hcases (root w) p) as [[m Hm]|[Hm|Hm]]; rewrite Hm.
  - apply locate_find in Hm as Hf. destruct m as [c|es].
    { destruct Hw. left. eauto. }
    exists IsADirectoryError. rewrite Hf. by split_and!.
  - assert (find (root w) p = None) as Hf.
    { destruct (find (root w) p) eqn:Hf; [|done].
      apply locate_find in Hf. congruence. }
    eexists. rewrite Hf. split_and!; [done | done | auto].
  - assert (find (root w) p = None) as Hf.
    { destruct (find (root w) p) eqn:Hf; [|done].
      apply locate_find in Hf. congruence. }
    destruct (Hcases (root w) (removelast p)) as [[m Hh]|[Hh|Hh]]; rewrite Hh.
    + apply locate_find in Hh as Hfh. destruct m as [c|es].
      * eexists. rewrite Hf. split_and!; [done | done | auto].
      * destruct Hw. right. by rewrite Hfh.
    + eexists. rewrite Hf. split_and!; [done | done | auto].
    + eexists. rewrite Hf. split_and!; [done | done | auto].
Qed.

Lemma universal_newlines_id s :
  CR ∉ String.list_ascii_of_string s → universal_newlines s = s.
Proof.
  induction s as [|c s IH]; [done|]. simpl.
  intros [Hc Hs]%not_elem_of_cons.
  rewrite decide_False by done. by rewrite IH.
Qed.

(** (writeToFile, readFromFile) What is written is what is read, up to
    the newlines: when [writeToFile] returns, [readFromFile] on the same
    name returns the content with each carriage return, and the line feed
    after it if there is one, turned into a line feed.  A content without
    carriage return comes back as it is. *)
Theorem write_then_read fileName content w :
  (writeToFile fileName content w).1 = Returns tt →
  (readFromFile fileName (writeToFile fileName content w).2).1
  = Returns (universal_newlines content)
  ∧ (CR ∉ String.list_ascii_of_string content →
     universal_newlines content = content).
Proof.
  intros Hret. split; [|apply universal_newlines_id].
  revert Hret. unfold writeToFile.
  destruct (open_for_writing _ _) as [o|e]; [|done]. unfold store.
  destruct (put _ _ _) as [r|] eqn:Hput; [|done]. intros _.
  cbn [snd]. unfold readFromFile, resolve. cbn [root cwd].
  apply find_put, locate_find in Hput. unfold resolve in Hput.
  by rewrite Hput.
Qed.

(** (writeToFile, appendToFile) Writing and then appending to the same
    name is writing the two contents joined: the same outcome and the same
    tree, from every state. *)
Theorem write_then_append fileName a b w :
  and_then (writeToFile fileName a) (appendToFile fileName b) w
  = writeToFile fileName (a +:+ b) w.
Proof.
  unfold and_then, writeToFile.
  destruct (open_for_writing _ _) as [o|e]; [|done]. unfold store.
  destruct (put _ _ (File a)) as [r|] eqn:Hput.
  - unfold appendToFile, resolve, open_for_writing, store. cbn [root cwd trace].
    unfold resolve in Hput.
    pose proof (find_put _ _ _ _ Hput) as Hl. apply locate_find in Hl.
    rewrite Hl. cbn [default from_option id].
    rewrite (put_put _ _ _ _ (File (a +:+ b)) Hput).
    destruct (put (root w) _ (File (a +:+ b))) eqn:Hab; [done|].
    by rewrite (put_None _ _ _ (File a) Hab) in Hput.
  - by rewrite (put_None _ _ _ (File (a +:+ b)) Hput).
Qed.

(** (appendToFile) Where a file can be written, [appendToFile] returns;
    a file that was there then holds its content followed by the content
    given, a file that was not holds the content given; the working
    directory is as before, and so is every path on which the file's path
    does not lie and which does not lie below it. *)
Theorem appendToFile_appends fileName content w :
  let p := resolve w fileName in
  let w' := (appendToFile fileName content w).2 in
  writable (root w) p →
  (appendToFile fileName content w).1 = Returns tt
  ∧ find (root w') p
    = Some (File (match find (root w) p with
                  | Some (File old) => old +:+ content
                  | _ => content
                  end))
  ∧ cwd w' = cwd w
  ∧ ∀ q, apart p q → find (root w') q = find (root w) q.
Proof.
  intros p w' Hw. unfold w', appendToFile. fold p.
  destruct (open_for_writing_writable _ _ Hw) as (o & Ho & [r Hr]).
  rewrite Ho. unfold store.
  assert (default EmptyString o +:+ content
          = match find (root w) p with
            | Some (File old) => old +:+ content
            | _ => content
            end) as <-.
  { revert Ho. unfold open_for_writing.
    destruct (locate (root w) p) as [[c|es]|e] eqn:Hl.
    - apply locate_find in Hl. rewrite Hl. by intros [= <-].
    - done.
    - assert (find (root w) p = None) as ->.
      { destruct (find (root w) p) eqn:Hf; [|done].
        apply locate_find in Hf. congruence. }
      destruct e as [[]| | | |]; try done.
      destruct (locate _ (removelast p)) as [[|]|]; try done.
      by intros [= <-]. }
  destruct (put (root w) p (File (default EmptyString o +:+ content)))
    as [r'|] eqn:Hput.
  2:{ by rewrite (put_None _ _ _ (File (default EmptyString o)) Hput) in Hr. }
  cbn [fst snd root cwd]. split_and!; [done | by eapply find_put | done |].
  intros q Hq. by eapply find_put_apart.
Qed.

Lemma TEXT_CHARS_spec b :
  (b < 256)%N → b ∈ TEXT_CHARS ↔ ¬ control_byte b.
Proof.
  intros Hb. unfold TEXT_CHARS, control_byte.
  rewrite list_elem_of_union, list_elem_of_difference, list_elem_of_fmap.
  rewrite !elem_of_cons, !elem_of_nil.
  split.
  - intros [H|[(n & -> & [Hn _]%elem_of_seq) Hne]]; lia.
  - intros H. destruct (decide (b < 32)%N) as [Hlt|Hge].
    + left. lia.
    + right. split; [|lia]. exists (N.to_nat b). split; [lia|].
      apply elem_of_seq. lia.
Qed.

Lemma isBinaryString_spec bytes :
  isBinaryString bytes = true ↔ ∃ b, b ∈ bytes ∧ b ∉ TEXT_CHARS.
Proof.
  unfold isBinaryString, translate_delete. rewrite bool_decide_eq_true.
  split.
  - intros Hne. destruct (filter _ bytes) as [|b l] eqn:Hf; [done|].
    exists b. apply and_comm, (list_elem_of_filter (λ b, b ∉ TEXT_CHARS)).
    rewrite Hf. left.
  - intros (b & Hb & Hn) Hnil.
    assert (b ∈ filter (λ b, b ∉ TEXT_CHARS) bytes) as Hin
      by by apply list_elem_of_filter.
    rewrite Hnil in Hin. by apply elem_of_nil in Hin.
Qed.

(** (isBinaryFile) For a file, [isBinaryFile] returns and changes nothing;
    it answers [True] exactly when one of the first 1024 bytes is a control
    character other than bell, backspace, tab, line feed, form feed,
    carriage return and escape, or is the delete character.  So a byte
    from 0x80 up counts as text, an empty file is not binary, and what
    comes after the first 1024 bytes is not looked at. *)
Theorem isBinaryFile_spec filePath w c :
  find (root w) (resolve w filePath) = Some (File c) →
  ∃ b, isBinaryFile filePath w = (Returns b, w)
     ∧ (b = true ↔ ∃ a, a ∈ take 1024 (String.list_ascii_of_string c)
                        ∧ control_byte (Ascii.N_of_ascii a)).
Proof.
  intros Hf%locate_find. unfold isBinaryFile. rewrite Hf.
  eexists. split; [done|]. rewrite isBinaryString_spec, <- fmap_take.
  split.
  - intros (b & (a & -> & Ha)%list_elem_of_fmap & Hb). exists a.
    split; [done|].
    destruct (decide (control_byte (Ascii.N_of_ascii a))) as [|Hn]; [done|].
    destruct Hb. apply TEXT_CHARS_spec; [apply Ascii.N_ascii_bounded | done].
  - intros (a & Ha & Hc). exists (Ascii.N_of_ascii a). split.
    + apply list_elem_of_fmap. eauto.
    + intros Ht. by apply TEXT_CHARS_spec in Ht;
        [|apply Ascii.N_ascii_bounded].
Qed.

(** * Random strings *)

Lemma slice_to_length {A} (l : list A) (stop : Z) :
  (Z.to_nat stop ≤ length l)%nat →
  (stop < 0 → l = []) →
  length (slice_to l stop) = Z.to_nat stop.
Proof.
  intros Hle Hneg. unfold slice_to. case_bool_decide.
  - rewrite length_take. lia.
  - rewrite Hneg by lia. simpl. lia.
Qed.

Lemma slice_to_sub {A} (l : list A) (stop : Z) x :
  x ∈ slice_to l stop → x ∈ l.
Proof.
  unfold slice_to. case_bool_decide; intros Hx;
    by eapply subseteq_take, Hx.
Qed.

(** (randomString) With a generator whose [choices] returns [k] members
    of the population and whose [shuffle] reorders: without any of the
    three classes the function returns [None] and draws nothing; with one
    at least it returns a string that has [length] characters (none for a
    negative [length]), each of them from a class that is asked for. *)
Theorem randomString_spec {rng} choices shuffle length digits caps small
    (g : rng) :
  fair rng choices shuffle →
  match (randomString rng choices shuffle length digits caps small g).1 with
  | None => digits = false ∧ caps = false ∧ small = false
            ∧ (randomString rng choices shuffle length digits caps small g).2
              = g
  | Some s =>
      (digits = true ∨ caps = true ∨ small = true)
      ∧ len s = Z.max 0 length
      ∧ ∀ c, c ∈ String.list_ascii_of_string s →
          (digits = true ∧ c ∈ string_digits)
          ∨ (caps = true ∧ c ∈ ascii_uppercase)
          ∨ (small = true ∧ c ∈ ascii_lowercase)
  end.
Proof.
  intros [Hch Hsh]. unfold randomString.
  destruct (negb (digits || caps || small)) eqn:Hany.
  { cbn [fst snd]. by destruct digits, caps, small. }
  destruct (Hch string_digits (Z.to_nat length) g) as [Hd1 Hd2]; [done|].
  destruct (choices string_digits _ g) as [randDigits g1].
  destruct (Hch ascii_uppercase (Z.to_nat length) g1) as [Hc1 Hc2]; [done|].
  destruct (choices ascii_uppercase _ g1) as [randCaps g2].
  destruct (Hch ascii_lowercase (Z.to_nat length) g2) as [Hs1 Hs2]; [done|].
  destruct (choices ascii_lowercase _ g2) as [randSmall g3].
  cbn [fst snd] in *.
  set (collect := if small then _ else _).
  pose proof (Hsh collect g3) as Hperm.
  destruct (shuffle collect g3) as [shuffled g4]. cbn [fst snd] in *.
  rewrite Forall_forall in Hd2, Hc2, Hs2.
  split; [by destruct digits, caps, small; auto|].
  unfold len. rewrite String.list_ascii_of_string_of_list_ascii. split.
  - rewrite slice_to_length; [lia | |].
    + rewrite Hperm. unfold collect.
      destruct digits, caps, small; try done;
        repeat rewrite length_app; lia.
    + intros Hneg. apply Permutation_nil_r. rewrite Hperm.
      assert (randDigits = [] ∧ randCaps = [] ∧ randSmall = [])
        as (-> & -> & ->).
      { split_and!; apply length_zero_iff_nil; lia. }
      unfold collect. by destruct digits, caps, small.
  - intros c Hc%slice_to_sub. rewrite Hperm in Hc. unfold collect in Hc.
    destruct digits, caps, small; try done;
      repeat (apply elem_of_app in Hc as [Hc|Hc]);
      try (by apply elem_of_nil in Hc); auto 10.
Qed.

(** * More on memoization *)

Section MemoizeMore.
Context {St : Type}.
Variable func : list pyobj → list (string * pyobj) → St → result pyobj * St.

(** One call: what it does to the number of entries and of invocations. *)
Lemma wrapper_counts args kwargs (m : memo St) :
  let m' := (wrapper func args kwargs m).2 in
  (size (cache m) ≤ size (cache m'))%nat
  ∧ (length (calls m) ≤ length (calls m') ≤ length (calls m) + 1)%nat
  ∧ (size (cache m') - size (cache m)
     ≤ length (calls m') - length (calls m))%nat
  ∧ ((∀ a k s, ∃ v, (func a k s).1 = Ok v) →
     (size (cache m') - size (cache m)
      = length (calls m') - length (calls m))%nat).
Proof.
  destruct (make_key args kwargs) as [key|] eqn:Hkey.
  - destruct (cache m !! key) as [v|] eqn:Hv.
    + rewrite (wrapper_hit func _ _ key v) by done. cbn [snd]. lia.
    + rewrite (wrapper_miss func _ _ key) by done.
      destruct (func args kwargs (fstate m)) as [[value|e] st] eqn:Hf;
        cbn [snd cache calls].
      * rewrite map_size_insert_None by done. rewrite length_app. simpl.
        split_and!; try lia; try (intros _; lia).
      * rewrite length_app. simpl. split_and!; try lia.
        intros Hok. destruct (Hok args kwargs (fstate m)) as [v Hv'].
        rewrite Hf in Hv'. done.
  - rewrite wrapper_unpicklable by done. cbn [snd]. lia.
Qed.

Lemma run_calls_counts cs : ∀ (m : memo St),
  let m' := run_calls func cs m in
  (length (calls m') ≤ length (calls m) + length cs)%nat
  ∧ (size (cache m) ≤ size (cache m'))%nat
  ∧ (length (calls m) ≤ length (calls m'))%nat
  ∧ (size (cache m') - size (cache m)
     ≤ length (calls m') - length (calls m))%nat
  ∧ ((∀ a k s, ∃ v, (func a k s).1 = Ok v) →
     (size (cache m') - size (cache m)
      = length (calls m') - length (calls m))%nat).
Proof.
  induction cs as [|c cs IH]; intros m; cbn zeta.
  { simpl. split_and!; try lia; try (intros _; lia). }
  change (run_calls func (c :: cs) m)
    with (run_calls func cs (wrapper func c.1 c.2 m).2).
  specialize (IH (wrapper func c.1 c.2 m).2). cbn zeta in IH.
  pose proof (wrapper_counts c.1 c.2 m) as Hw. cbn zeta in Hw.
  destruct IH as (I1 & I2 & I3 & I4 & I5).
  destruct Hw as (W1 & W2 & W3 & W4).
  cbn [length]. split_and!; try lia.
  intros Hok. specialize (I5 Hok). specialize (W4 Hok). lia.
Qed.

End MemoizeMore.

(** (memoize) From a new wrapper and through any calls, whatever they
    return or raise: the cache has at most one entry for each invocation
    of [func], and [func] is invoked at most once for each call.  When
    [func] never raises, the two numbers are the same: [func] has been
    invoked exactly once for each entry of the cache. *)
Theorem memoize_counts {St} func (st : St) cs :
  let m := run_calls func cs (memoize st) in
  (size (cache m) ≤ length (calls m) ≤ length cs)%nat
  ∧ ((∀ a k s, ∃ v, (func a k s).1 = Ok v) →
     size (cache m) = length (calls m)).
Proof.
  pose proof (run_calls_counts func cs (memoize st)) as H. cbn zeta in H.
  cbn [memoize cache calls length] in H. rewrite map_size_empty in H.
  destruct H as (H1 & H2 & H3 & H4 & H5). cbn zeta.
  split; [lia|]. intros Hok. specialize (H5 Hok). lia.
Qed.

(** (memoize) An exception is not cached.  When [func] raises for
    arguments that are not in the cache, the wrapper raises the same
    exception and the cache is as before; the next call with the same
    arguments invokes [func] again. *)
Theorem memoize_exception_not_cached {St} func args kwargs key e
    (m : memo St) :
  let m1 := (wrapper func args kwargs m).2 in
  make_key args kwargs = Some key →
  cache m !! key = None →
  (func args kwargs (fstate m)).1 = Raise e →
  (wrapper func args kwargs m).1 = Raise e
  ∧ cache m1 = cache m
  ∧ calls m1 = calls m ++ [(args, kwargs)]
  ∧ calls (wrapper func args kwargs m1).2
    = calls m ++ [(args, kwargs); (args, kwargs)].
Proof.
  intros m1 Hkey Hmiss Hraise. unfold m1.
  rewrite (wrapper_miss func _ _ key) by done.
  destruct (func args kwargs (fstate m)) as [[v|e'] st] eqn:Hf; [done|].
  cbn [fst] in Hraise. simplify_eq. cbn [fst snd cache calls].
  split_and!; try done.
  rewrite (wrapper_miss func _ _ key) by done. cbn [fstate calls cache].
  destruct (func args kwargs st) as [[v|e'] st']; cbn [snd calls];
    by rewrite <- (assoc_L (++)).
Qed.

(** * Floats from their bits *)

Lemma foldl_big_endian size : ∀ u acc,
  foldl (λ acc b, acc * 256 + b) acc (big_endian size u)
  = acc * 2 ^ (8 * Z.of_nat size) + u mod 2 ^ (8 * Z.of_nat size).
Proof.
  induction size as [|n IH]; intros u acc.
  - simpl. rewrite Z.mod_1_r. lia.
  - cbn [big_endian foldl]. rewrite IH.
    replace (8 * Z.of_nat (Datatypes.S n)) with (8 * Z.of_nat n + 8) by lia.
    rewrite Z.pow_add_r by lia. change (2 ^ 8) with 256.
    rewrite (Z.rem_mul_r u (2 ^ (8 * Z.of_nat n)) 256) by lia. lia.
Qed.

(** What is packed is what is unpacked. *)
Lemma from_big_endian_big_endian size u :
  0 ≤ u < 2 ^ (8 * Z.of_nat size) →
  from_big_endian (big_endian size u) = u.
Proof.
  intros Hu. unfold from_big_endian. rewrite foldl_big_endian.
  rewrite Z.mod_small by done. lia.
Qed.

Lemma pack_unpack size ebits mbits v :
  match pack_int size v with
  | Returns bytes => Returns (Some (unpack_float ebits mbits bytes))
  | Raises e => Raises e
  end
  = let width := 8 * Z.of_nat size in
    if bool_decide (- 2 ^ (width - 1) ≤ v < 2 ^ (width - 1))
    then Returns (Some (decode_ieee ebits mbits (v mod 2 ^ width)))
    else Raises StructError.
Proof.
  unfold pack_int, unpack_float. cbv zeta. case_bool_decide; [|done].
  rewrite from_big_endian_big_endian; [done|].
  apply Z.mod_pos_bound. lia.
Qed.

(** (hexToFloat) For an integer, whatever [int(s, 16)] does on strings:
    from 0 to below 2^31 the float with these bits is returned; from
    -2^31 to below 0 the float with the bits of the two's complement; for
    every other integer [struct.error] is raised.  The bits of a float
    with the minus sign, read as a hexadecimal number, are from 2^31 up:
    they are refused. *)
Theorem hexToFloat_int int16 v :
  hexToFloat int16 (HexInt v)
  = if bool_decide (0 ≤ v < 2 ^ 31) then
      Returns (Some (decode_ieee 8 23 v))
    else if bool_decide (- 2 ^ 31 ≤ v < 0) then
      Returns (Some (decode_ieee 8 23 (v + 2 ^ 32)))
    else Raises StructError.
Proof.
  unfold hexToFloat. rewrite pack_unpack. cbv zeta.
  change (8 * Z.of_nat 4 - 1) with 31. change (8 * Z.of_nat 4) with 32.
  repeat case_bool_decide; try lia.
  - by rewrite Z.mod_small by lia.
  - do 3 f_equal. symmetry. apply (Z.mod_unique _ _ (-1)); lia.
  - done.
Qed.

(** (hexToDouble) The same with 64 bits: from 0 to below 2^63 the double
    with these bits, from -2^63 to below 0 the double with the bits of the
    two's complement, [struct.error] for every other integer, so for the
    bits of every double with the minus sign. *)
Theorem hexToDouble_int int16 v :
  hexToDouble int16 (HexInt v)
  = if bool_decide (0 ≤ v < 2 ^ 63) then
      Returns (Some (decode_ieee 11 52 v))
    else if bool_decide (- 2 ^ 63 ≤ v < 0) then
      Returns (Some (decode_ieee 11 52 (v + 2 ^ 64)))
    else Raises StructError.
Proof.
  unfold hexToDouble. rewrite pack_unpack. cbv zeta.
  change (8 * Z.of_nat 8 - 1) with 63. change (8 * Z.of_nat 8) with 64.
  repeat case_bool_decide; try lia.
  - by rewrite Z.mod_small by lia.
  - do 3 f_equal. symmetry. apply (Z.mod_unique _ _ (-1)); lia.
  - done.
Qed.

(** The example of the docstring: [0x41b80000] is 12058624 / 2^19, that
    is 23. *)
Example hexToFloat_docstring int16 :
  hexToFloat int16 (HexInt 0x41b80000)
  = Returns (Some (SpecFloat.S754_finite false 12058624 (-19))).
Proof. reflexivity. Qed.

(** ** Instances of the further theorems *)

Lemma createDir_makes_directory_witness :
  let w' := after (createDir benign (abs ["d"]) true) fresh in
  abs ["d"] = abs (resolve fresh (abs ["d"]))
  ∧ is_dir (find (root w') (resolve fresh (abs ["d"]))) = true
  ∧ cwd w' = cwd fresh.
Proof.
  apply (createDir_makes_directory benign (abs ["d"]) true fresh (abs ["d"])).
  reflexivity.
Defined.

Lemma createDir_taken_witness :
  let w' := after (createDir benign (abs ["home"]) true) nowhere in
  outcome (createDir benign (abs ["home"]) true) nowhere = Ok None
  ∧ root w' = root nowhere
  ∧ last (trace w') = Some (LogError ["home"] FileExistsError).
Proof.
  apply (createDir_taken benign (abs ["home"]) true (File "") nowhere);
    [reflexivity | left; reflexivity].
Defined.

Lemma createDir_new_is_empty_witness :
  outcome (isEmptyDir (abs ["d"]))
    (after (createDir benign (abs ["d"]) true) fresh) = Ok true.
Proof.
  apply (createDir_new_is_empty benign (abs ["d"]) true fresh (abs ["d"]));
    reflexivity.
Defined.

Lemma getAllFilePaths_exact_witness :
  ∃ l, getAllFilePaths (abs ["s"]) plain = (Ok l, plain)
     ∧ NoDup l
     ∧ ∀ p, p ∈ l ↔ ∃ q, q ≠ [] ∧ p = join (abs ["s"]) (rel q)
                         ∧ is_Some (find (root plain) (resolve plain p)).
Proof. apply (getAllFilePaths_exact (abs ["s"]) plain). reflexivity. Defined.

Lemma getAllFilePaths_top_down_witness :
  before [abs ["s"; "a"]; abs ["s"; "f"]; abs ["s"; "a"; "x"]]
    (abs ["s"; "a"]) (join (abs ["s"; "a"]) (rel ["x"])).
Proof.
  apply (getAllFilePaths_top_down (abs ["s"]) plain
           [abs ["s"; "a"]; abs ["s"; "f"]; abs ["s"; "a"; "x"]]
           (abs ["s"; "a"]) ["x"]).
  - reflexivity.
  - reflexivity.
  - apply list_elem_of_here.
  - discriminate.
  - apply list_elem_of_further, list_elem_of_further, list_elem_of_here.
Defined.




Lemma calcLineNum_new_string_witness :
  (calcLineNum posix_linesep two_lines 3 line_cache_init).1
  = Returns (1 + separators posix_linesep two_lines 3)
  ∧ (calcLineNum posix_linesep two_lines 3 line_cache_init).2
    = LineCache two_lines 0 (1 + separators posix_linesep two_lines 3).
Proof.
  apply (calcLineNum_new_string posix_linesep
           two_lines 3
           line_cache_init).
  - vm_compute. discriminate.
  - vm_compute. discriminate.
Defined.

Lemma calcLineNum_same_string_witness :
  let s := two_lines in
  let '(r1, g1) := calcLineNum posix_linesep s 3 line_cache_init in
  let '(r2, g2) := calcLineNum posix_linesep s 3 g1 in
  r1 = Returns (1 + separators posix_linesep s 3)
  ∧ r2 = Returns (1 + separators posix_linesep s 3
                  + separators posix_linesep s 3)
  ∧ lastPos g2 = 0.
Proof.
  apply (calcLineNum_same_string posix_linesep
           two_lines 3 3
           line_cache_init).
  - vm_compute. discriminate.
  - vm_compute. discriminate.
  - vm_compute. discriminate.
Defined.

Lemma calcLineNum_beyond_end_witness :
  (calcLineNum posix_linesep "ab" 3 line_cache_init).1 = Raises IndexError
  ∧ lastPos (calcLineNum posix_linesep "ab" 3 line_cache_init).2 = 0.
Proof.
  apply (calcLineNum_beyond_end posix_linesep "ab" 3 line_cache_init).
  - reflexivity.
  - reflexivity.
Defined.

Lemma writable_new_file : writable (root plain) ["d"; "new"].
Proof. right. split; reflexivity. Defined.

Lemma not_writable_directory : ¬ writable (root plain) ["d"; "a"].
Proof. intros [[old H]|[H _]]; discriminate H. Defined.

Lemma writeToFile_writes_witness :
  let w' := (writeToFile (abs ["d"; "new"]) "text" plain).2 in
  (writeToFile (abs ["d"; "new"]) "text" plain).1 = Returns tt
  ∧ find (root w') ["d"; "new"] = Some (File "text")
  ∧ cwd w' = cwd plain
  ∧ ∀ q, apart ["d"; "new"] q → find (root w') q = find (root plain) q.
Proof.
  apply (writeToFile_writes (abs ["d"; "new"]) "text" plain).
  exact writable_new_file.
Defined.

Lemma writeToFile_refuses_witness :
  ∃ e, writeToFile (abs ["d"; "a"]) "text" plain = (Raises e, plain)
       ∧ (e = IsADirectoryError
          ↔ is_dir (find (root plain) ["d"; "a"]) = true)
       ∧ (e ≠ IsADirectoryError →
          e = Exn NotADirectoryError ∨ e = Exn FileNotFoundError).
Proof.
  apply (writeToFile_refuses (abs ["d"; "a"]) "text" plain).
  exact not_writable_directory.
Defined.

Lemma write_then_read_witness :
  (readFromFile (abs ["d"; "new"])
     (writeToFile (abs ["d"; "new"]) "text" plain).2).1
  = Returns (universal_newlines "text")
  ∧ (CR ∉ String.list_ascii_of_string "text" →
     universal_newlines "text" = "text").
Proof.
  apply (write_then_read (abs ["d"; "new"]) "text" plain). reflexivity.
Defined.

Lemma appendToFile_appends_witness :
  let w' := (appendToFile (abs ["s"; "f"]) "G" plain).2 in
  (appendToFile (abs ["s"; "f"]) "G" plain).1 = Returns tt
  ∧ find (root w') ["s"; "f"] = Some (File "FG")
  ∧ cwd w' = cwd plain
  ∧ ∀ q, apart ["s"; "f"] q → find (root w') q = find (root plain) q.
Proof.
  apply (appendToFile_appends (abs ["s"; "f"]) "G" plain).
  left. exists "F". reflexivity.
Defined.

Lemma isBinaryFile_spec_witness :
  ∃ b, isBinaryFile (abs ["s"; "f"]) plain = (Returns b, plain)
     ∧ (b = true ↔ ∃ a, a ∈ take 1024 (String.list_ascii_of_string "F")
                        ∧ control_byte (Ascii.N_of_ascii a)).
Proof. apply (isBinaryFile_spec (abs ["s"; "f"]) plain "F"). reflexivity. Defined.

Lemma fair_without_chance : fair unit first_choices turn_round.
Proof.
  split.
  - intros pop k g Hpop. unfold first_choices. cbn [fst]. split.
    + apply length_replicate.
    + apply Forall_replicate. destruct pop as [|a pop]; [done|]. left.
  - intros l g. apply reverse_Permutation.
Defined.

Lemma randomString_spec_witness :
  match (randomString unit first_choices turn_round 4 true false true tt).1
  with
  | None => true = false ∧ false = false ∧ true = false
            ∧ (randomString unit first_choices turn_round 4 true false true
                 tt).2 = tt
  | Some s =>
      (true = true ∨ false = true ∨ true = true)
      ∧ len s = Z.max 0 4
      ∧ ∀ c, c ∈ String.list_ascii_of_string s →
          (true = true ∧ c ∈ string_digits)
          ∨ (false = true ∧ c ∈ ascii_uppercase)
          ∨ (true = true ∧ c ∈ ascii_lowercase)
  end.
Proof.
  apply (randomString_spec first_choices turn_round 4 true false true tt).
  exact fair_without_chance.
Defined.

Lemma counting_returns a k s : ∃ v, (counting a k s).1 = Ok v.
Proof. eexists. reflexivity. Defined.

Lemma memoize_counts_witness :
  let m := run_calls counting
             [([PyInt 1], []); ([PyInt 2], []); ([PyInt 1], [])]
             (memoize 0%nat) in
  size (cache m) = length (calls m).
Proof.
  apply (memoize_counts counting 0%nat
           [([PyInt 1], []); ([PyInt 2], []); ([PyInt 1], [])]).
  exact counting_returns.
Defined.

Lemma memoize_exception_not_cached_witness :
  let m := memoize 0%nat in
  let m1 := (wrapper refusing [PyInt 1] [] m).2 in
  (wrapper refusing [PyInt 1] [] m).1 = Raise PermissionError
  ∧ cache m1 = cache m
  ∧ calls m1 = calls m ++ [([PyInt 1], [])]
  ∧ calls (wrapper refusing [PyInt 1] [] m1).2
    = calls m ++ [([PyInt 1], []); ([PyInt 1], [])].
Proof.
  apply (memoize_exception_not_cached refusing [PyInt 1] []
           ([PROTO 4; BININT 1; TUPLE1; MEMOIZE; STOP],
            [PROTO 4; EMPTY_DICT; MEMOIZE; STOP])
           PermissionError (memoize 0%nat)).
  - reflexivity.
  - reflexivity.
  - reflexivity.
Defined.

Lemma calcLineNum_long_linesep_witness :
  (calcLineNum (String CR posix_linesep) two_lines 3 line_cache_init).1
  = Returns 1.
Proof.
  apply (calcLineNum_long_linesep (String CR posix_linesep) two_lines 3
           line_cache_init).
  - vm_compute. discriminate.
  - vm_compute. discriminate.
  - vm_compute. discriminate.
Defined.
